(** * RiskLabAI.data.structures.utilities.compute_thresholds

    A shallow embedding of the information-driven bar segmenter of
    [src/RiskLabAI/data/structures/utilities.py] and the properties of
    its six output sequences.

    - The scalar type is kept behind an interface ([Scalar]): the code
      works on numpy's float64, and the instance [binary64] below is that
      type (Rocq's primitive IEEE 754 binary64 numbers).  The theorems
      hold for every instance; arithmetic laws that float64 has only in a
      range appear as hypotheses where a statement needs them.
    - Buffers created by [np.zeros] are lists updated by index; the lists
      [time_deltas] and [times] grow by [append].
    - Python integers (indices, the group counter) are [nat] or [Z]; an
      integer stored in a float64 buffer or multiplied with a float64 goes
      through [f_of_int].
    - Python exceptions are the [Err] results of a small error monad.
    - [time.time] and [progress_bar] only report progress and are left
      out. *)

From Stdlib Require Import ZArith Lia Floats.
From stdpp Require Import base list.

Set Default Proof Using "Type".
Local Open Scope Z_scope.

(** ** Exceptions and the error monad *)

(** The exceptions a call can end with.  [InvalidInput] is the failure
    the specification names for rejected arguments; [NumericError] is the
    failure of the smoothing primitive; [IndexError] and [OverflowError]
    are raised by numpy indexing and by [np.int64]. *)
Inductive exn : Type :=
  | IndexError
  | OverflowError
  | NumericError
  | InvalidInput.

Inductive result (A : Type) : Type :=
  | Ok (a : A)
  | Err (e : exn).
Arguments Ok {A} a.
Arguments Err {A} e.

Definition bind {A B : Type} (c : result A) (k : A → result B) : result B :=
  match c with
  | Ok a => k a
  | Err e => Err e
  end.

Notation "'let*' x ':=' c 'in' k" := (bind c (fun x => k))
  (at level 10, x name, c at level 100, k at level 200).

(** ** Scalars *)

(** What [compute_thresholds] does with float64 values: addition,
    multiplication, [np.abs], the comparison [>=], the conversion of a
    Python integer, the [0.0] of [np.zeros], and the finiteness test the
    specification's NumericError refers to. *)
Class Scalar (F : Type) : Type := {
  f_zero : F;
  f_add : F → F → F;
  f_mul : F → F → F;
  f_abs : F → F;
  f_ge : F → F → bool;
  f_of_int : Z → F;
  f_isfinite : F → bool;
}.

(** numpy's float64.  The integer conversion rounds to nearest even, as
    Python's does; it is exact below 2^53.  Beyond the float64 range it
    gives an infinity, where Python raises OverflowError: a statement
    that the call returns keeps initial_expected_ticks, the one integer
    converted that the caller chooses, in the range of [np.int64]. *)
Definition float_of_Z (z : Z) : float :=
  SF2Prim (binary_normalize prec emax z 0 false).

Definition float_isfinite (x : float) : bool :=
  negb (PrimFloat.is_nan x || PrimFloat.is_infinity x).

#[export] Instance binary64 : Scalar float := {
  f_zero := PrimFloat.zero;
  f_add := PrimFloat.add;
  f_mul := PrimFloat.mul;
  f_abs := PrimFloat.abs;
  f_ge := fun x y => PrimFloat.leb y x;
  f_of_int := float_of_Z;
  f_isfinite := float_isfinite;
}.

(** ** Array primitives *)

(** [a[i]] on a list or numpy array: IndexError out of range. *)
Definition getitem {A : Type} (a : list A) (i : nat) : result A :=
  match a !! i with
  | Some x => Ok x
  | None => Err IndexError
  end.

(** [a[i] = v] on a numpy buffer: IndexError out of range. *)
Definition setitem {A : Type} (a : list A) (i : nat) (v : A) : result (list A) :=
  if decide (i < length a)%nat then Ok (<[i:=v]> a) else Err IndexError.

(** [a[-1]]: IndexError on an empty array. *)
Definition getlast {A : Type} (a : list A) : result A :=
  match last a with
  | Some x => Ok x
  | None => Err IndexError
  end.

(** [np.int64(n)] of a Python integer: OverflowError outside the signed
    64-bit range. *)
Definition np_int64 (n : Z) : result Z :=
  if decide (- 2 ^ 63 ≤ n < 2 ^ 63) then Ok n else Err OverflowError.

(** [for i in range(...)] with a body that can raise. *)
Fixpoint for_range {S : Type} (body : S → nat → result S)
    (range : list nat) (st : S) : result S :=
  match range with
  | [] => Ok st
  | i :: range' => let* st' := body st i in for_range body range' st'
  end.

(** ** The segmenter *)

Section Segmenter.
Context {F : Type} `{Scalar F}.

(** What the smoothing primitive computes on a window and a span, left
    open; [None] when it computes nothing. *)
Variable smooth : list F → Z → option (list F).

(** Modelled from the spec: [exponential_weighted_moving_average] of
    [RiskLabAI.utils] is imported by the source but is not part of it.
    Section 6 gives its contract (a sequence and a span in, a sequence
    out) and section 7 its one failure, NumericError. *)
Definition exponential_weighted_moving_average
    (array : list F) (window_length : Z) : result (list F) :=
  match smooth array window_length with
  | Some out => Ok out
  | None => Err NumericError
  end.

(** The local variables of [compute_thresholds] that the loop reads and
    writes. *)
Record state : Type := State {
  absolute_thetas : list F;
  thresholds : list F;
  thetas : list F;
  grouping_ids : list F;
  current_theta : F;
  current_grouping_id : nat;
  time_deltas : list F;
  times : list nat;
  previous_time : nat;
  expected_ticks : F;
  expected_bar_value : F;
}.

(** The body of the loop (source lines 54-77).  [progress_bar] only
    reports and is left out. *)
Definition step (target_column : list F) (initial_expected_ticks : Z)
    (st : state) (i : nat) : result state :=
  let* x := getitem target_column i in
  let current_theta := f_add (current_theta st) x in
  let* thetas := setitem (thetas st) i current_theta in
  let absolute_theta := f_abs current_theta in
  let* absolute_thetas := setitem (absolute_thetas st) i absolute_theta in
  let threshold := f_mul (expected_ticks st) (expected_bar_value st) in
  let* thresholds := setitem (thresholds st) i threshold in
  let* grouping_ids :=
    setitem (grouping_ids st) i (f_of_int (Z.of_nat (current_grouping_id st))) in
  if f_ge absolute_theta threshold then
    let current_grouping_id := S (current_grouping_id st) in
    let current_theta := f_of_int 0 in
    let time_delta := f_of_int (Z.of_nat i - Z.of_nat (previous_time st)) in
    let time_deltas := time_deltas st ++ [time_delta] in
    let times := times st ++ [i] in
    let previous_time := i in
    let* span := np_int64 (Z.of_nat (length time_deltas)) in
    let* ticks_avg := exponential_weighted_moving_average time_deltas span in
    let* expected_ticks := getlast ticks_avg in
    let* span' := np_int64 initial_expected_ticks in
    let* bar_avg :=
      exponential_weighted_moving_average (take i target_column) span' in
    let* bar_last := getlast bar_avg in
    let expected_bar_value := f_abs bar_last in
    Ok (State absolute_thetas thresholds thetas grouping_ids
          current_theta current_grouping_id time_deltas times previous_time
          expected_ticks expected_bar_value)
  else
    Ok (State absolute_thetas thresholds thetas grouping_ids
          current_theta (current_grouping_id st) (time_deltas st) (times st)
          (previous_time st) (expected_ticks st) (expected_bar_value st)).

(** The state before the loop (source lines 32-49).  [expected_ticks]
    starts as the integer initial_expected_ticks; the product of source
    line 59 converts it to float64, which [f_of_int] does here. *)
Definition init (target_column : list F) (initial_expected_ticks : Z)
    (initial_bar_size : F) : result state :=
  let num_values := length target_column in
  let absolute_thetas := replicate num_values f_zero in
  let thresholds := replicate num_values f_zero in
  let thetas := replicate num_values f_zero in
  let grouping_ids := replicate num_values f_zero in
  let* current_theta := getitem target_column 0 in
  let* thetas := setitem thetas 0 current_theta in
  let* absolute_thetas := setitem absolute_thetas 0 (f_abs current_theta) in
  let current_grouping_id := 0%nat in
  let* grouping_ids :=
    setitem grouping_ids 0 (f_of_int (Z.of_nat current_grouping_id)) in
  Ok (State absolute_thetas thresholds thetas grouping_ids
        current_theta current_grouping_id [] [] 0%nat
        (f_of_int initial_expected_ticks) initial_bar_size).

(** The six returned sequences, in the order of the [return]. *)
Definition outputs : Type :=
  (list F * list F * list F * list nat * list F * list F)%type.

Definition returned (st : state) : outputs :=
  (time_deltas st, absolute_thetas st, thresholds st, times st,
   thetas st, grouping_ids st).

Definition scan (target_column : list F) (initial_expected_ticks : Z)
    (st : state) : result state :=
  for_range (step target_column initial_expected_ticks)
    (seq 1 (length target_column - 1)) st.

Definition compute_thresholds (target_column : list F)
    (initial_expected_ticks : Z) (initial_bar_size : F) : result outputs :=
  let* st := init target_column initial_expected_ticks initial_bar_size in
  let* st := scan target_column initial_expected_ticks st in
  Ok (returned st).

End Segmenter.

Arguments state F : clear implicits.
Arguments outputs F : clear implicits.

(** ** A reference smoothing primitive on float64 *)

(** Modelled from the spec: the recursion of the smoothing primitive, "a
    recursively weighted exponential average with decay factor derived
    from span" (section 6), each output weighing the new value by [alpha]
    and the previous output by [1 - alpha]. *)
Fixpoint ewma_from (alpha prev : float) (xs : list float) : list float :=
  match xs with
  | [] => []
  | x :: xs' =>
      let y := (alpha * x + (1 - alpha) * prev)%float in
      y :: ewma_from alpha y xs'
  end.

(** Modelled from the spec: the smoothing primitive on float64, with
    decay 2 / (span + 1) and the first value as first output (section 6);
    a window holding a value that is not finite is its NumericError
    (section 7), here [None]. *)
Definition ewma (xs : list float) (span : Z) : option (list float) :=
  if forallb float_isfinite xs then
    match xs with
    | [] => Some []
    | x :: xs' => Some (x :: ewma_from (2 / float_of_Z (span + 1))%float x xs')
    end
  else None.

(** ** Scenarios on float64 *)

(** Six ones with seeds 3 and 1.0: boundaries at indices 2 and 4. *)
Definition demo_features : list float := [1; 1; 1; 1; 1; 1]%float.
Definition demo_time_deltas : list float := [2; 2]%float.
Definition demo_absolute_thetas : list float := [1; 2; 3; 1; 2; 1]%float.
Definition demo_thresholds : list float := [0; 3; 3; 2; 2; 2]%float.
Definition demo_times : list nat := [2; 4]%nat.
Definition demo_thetas : list float := [1; 2; 3; 1; 2; 1]%float.
Definition demo_grouping_ids : list float := [0; 0; 0; 1; 1; 2]%float.

(** The state after the pass at index 1 on [1.0, 3.0, 1.0] with seeds 1
    and 1.0, where a boundary is declared. *)
Definition after_first_boundary : state float :=
  {| absolute_thetas := [1; 4; 0]%float;
     thresholds := [0; 1; 0]%float;
     thetas := [1; 4; 0]%float;
     grouping_ids := [0; 0; 0]%float;
     current_theta := 0%float;
     current_grouping_id := 1;
     time_deltas := [1]%float;
     times := [1%nat];
     previous_time := 1;
     expected_ticks := 1%float;
     expected_bar_value := 1%float |}.

(** The state after the pass at index 1 on [1.0, inf, 5.0] with seeds 1
    and 1.0: the infinite value has closed the first bar. *)
Definition after_infinite_value : state float :=
  {| absolute_thetas := [1; infinity; 0]%float;
     thresholds := [0; 1; 0]%float;
     thetas := [1; infinity; 0]%float;
     grouping_ids := [0; 0; 0]%float;
     current_theta := 0%float;
     current_grouping_id := 1;
     time_deltas := [1]%float;
     times := [1%nat];
     previous_time := 1;
     expected_ticks := 1%float;
     expected_bar_value := 1%float |}.

(** Four features whose running sums 2.0, 1.0, 1.5 stay below the seed
    threshold 3 * 2.0. *)
Definition calm_features : list float := [1; 1; -1; 0.5]%float.

(** A series with a NaN at index 1, and what the call returns on it with
    seeds 1 and 1.0. *)
Definition nan_features : list float := [1; nan; 5; 100]%float.
Definition nan_thetas : list float := [1; nan; nan; nan]%float.
Definition nan_thresholds : list float := [0; 1; 1; 1]%float.
Definition nan_grouping_ids : list float := [0; 0; 0; 0]%float.

(** ** Boundary bookkeeping read off the outputs *)

(** The differences between consecutive boundary indices, the first one
    taken from [prev]. *)
Fixpoint deltas (prev : nat) (ts : list nat) : list Z :=
  match ts with
  | [] => []
  | t :: ts' => (Z.of_nat t - Z.of_nat prev) :: deltas t ts'
  end.

(** The boundaries declared strictly before index [j]. *)
Definition boundaries_before (j : nat) (ts : list nat) : list nat :=
  filter (λ t, (t < j)%nat) ts.

(** Strictly increasing lists of indices. *)
Fixpoint increasing_from (lo : nat) (ts : list nat) : Prop :=
  match ts with
  | [] => True
  | t :: ts' => (lo < t)%nat ∧ increasing_from t ts'
  end.

(** The sum of a list of integers. *)
Definition sum_Z (ds : list Z) : Z := foldr Z.add 0 ds.

(** ** Properties of the scan *)

Section SegmenterFacts.
Context {F : Type} `{Scalar F}.
Variable smooth : list F → Z → option (list F).
Variable target_column : list F.
Variable initial_expected_ticks : Z.
Variable initial_bar_size : F.

(** Python's [sum] of a list of scalars: the additions start from the
    integer 0. *)
Definition sum_scalars (xs : list F) : F := foldl f_add (f_of_int 0) xs.

(** What one successful pass through the loop body does to the state:
    the four buffers are written at [i], and either nothing else changes
    but the running sum ([step_quiet]) or a boundary is declared and both
    estimates are replaced ([step_boundary]). *)
Inductive step_to (st : state F) (i : nat) : state F → Prop :=
  | step_quiet x :
      target_column !! i = Some x →
      (i < length (thetas st))%nat →
      (i < length (absolute_thetas st))%nat →
      (i < length (thresholds st))%nat →
      (i < length (grouping_ids st))%nat →
      f_ge (f_abs (f_add (current_theta st) x))
           (f_mul (expected_ticks st) (expected_bar_value st)) = false →
      step_to st i
        (State
           (<[i:=f_abs (f_add (current_theta st) x)]> (absolute_thetas st))
           (<[i:=f_mul (expected_ticks st) (expected_bar_value st)]> (thresholds st))
           (<[i:=f_add (current_theta st) x]> (thetas st))
           (<[i:=f_of_int (Z.of_nat (current_grouping_id st))]> (grouping_ids st))
           (f_add (current_theta st) x) (current_grouping_id st)
           (time_deltas st) (times st) (previous_time st)
           (expected_ticks st) (expected_bar_value st))
  | step_boundary x ticks_avg ticks_last bar_avg bar_last :
      target_column !! i = Some x →
      (i < length (thetas st))%nat →
      (i < length (absolute_thetas st))%nat →
      (i < length (thresholds st))%nat →
      (i < length (grouping_ids st))%nat →
      f_ge (f_abs (f_add (current_theta st) x))
           (f_mul (expected_ticks st) (expected_bar_value st)) = true →
      smooth (time_deltas st ++ [f_of_int (Z.of_nat i - Z.of_nat (previous_time st))])
             (Z.of_nat (length (time_deltas st ++
                [f_of_int (Z.of_nat i - Z.of_nat (previous_time st))])))
        = Some ticks_avg →
      last ticks_avg = Some ticks_last →
      - 2 ^ 63 ≤ initial_expected_ticks < 2 ^ 63 →
      smooth (take i target_column) initial_expected_ticks = Some bar_avg →
      last bar_avg = Some bar_last →
      step_to st i
        (State
           (<[i:=f_abs (f_add (current_theta st) x)]> (absolute_thetas st))
           (<[i:=f_mul (expected_ticks st) (expected_bar_value st)]> (thresholds st))
           (<[i:=f_add (current_theta st) x]> (thetas st))
           (<[i:=f_of_int (Z.of_nat (current_grouping_id st))]> (grouping_ids st))
           (f_of_int 0) (S (current_grouping_id st))
           (time_deltas st ++ [f_of_int (Z.of_nat i - Z.of_nat (previous_time st))])
           (times st ++ [i]) i ticks_last (f_abs bar_last)).

(** Before the pass at index [i]: the buffers have the length of the
    series, the time deltas are the differences of the boundary indices,
    the group counter is their number, [previous_time] is the last of
    them, and they increase strictly within 1 .. [i - 1]. *)
Record shape (i : nat) (st : state F) : Prop := Shape {
  shape_absolute_thetas : length (absolute_thetas st) = length target_column;
  shape_thresholds : length (thresholds st) = length target_column;
  shape_thetas : length (thetas st) = length target_column;
  shape_grouping_ids : length (grouping_ids st) = length target_column;
  shape_time_deltas : time_deltas st = f_of_int <$> deltas 0 (times st);
  shape_grouping_id : current_grouping_id st = length (times st);
  shape_previous_time : previous_time st = default 0%nat (last (times st));
  shape_increasing : increasing_from 0 (times st);
  shape_bound : Forall (λ t, (t < i)%nat) (times st);
}.

(** The test of source line 63 read back from the two buffers at [j]. *)
Definition triggered (absolute_thetas thresholds : list F) (j : nat) : Prop :=
  ∃ a t, absolute_thetas !! j = Some a ∧ thresholds !! j = Some t ∧
         f_ge a t = true.

(** Before the pass at index [i]: an index in 1 .. [i - 1] is a boundary
    exactly when the test held there. *)
Definition exact (i : nat) (st : state F) : Prop :=
  ∀ j, (1 ≤ j < i)%nat →
    (j ∈ times st ↔ triggered (absolute_thetas st) (thresholds st) j).

(** Before the pass at index [i]: the group identifier recorded at an
    index below [i] is the number of boundaries declared before it. *)
Definition counted (i : nat) (st : state F) : Prop :=
  ∀ j, (j < i)%nat →
    grouping_ids st !! j
    = Some (f_of_int (Z.of_nat (length (boundaries_before j (times st))))).

(** [exponential_weighted_moving_average(xs, span)[-1]], when the call
    returns a sequence that has a last element. *)
Definition smoothed_last (xs : list F) (span : Z) : option F :=
  smooth xs span ≫= last.

(** The two estimates in effect once the boundaries [ts] have been
    declared, [tds] holding the time deltas: the seeds of source lines
    48-49 when there is none, what source lines 70-77 computed at the
    last of them otherwise. *)
Definition estimates (tds : list F) (ts : list nat) : option (F * F) :=
  match last ts with
  | None => Some (f_of_int initial_expected_ticks, initial_bar_size)
  | Some t =>
      ticks_last ← smoothed_last (take (length ts) tds) (Z.of_nat (length ts));
      bar_last ← smoothed_last (take t target_column) initial_expected_ticks;
      Some (ticks_last, f_abs bar_last)
  end.

(** The threshold of source line 59 for a pair of estimates. *)
Definition threshold_of (estimate : F * F) : F :=
  f_mul estimate.1 estimate.2.

(** Before the pass at index [i]: the threshold at index 0 is untouched,
    the current estimates are those of all the boundaries so far, and the
    threshold recorded at an index in 1 .. [i - 1] is the product of the
    estimates of the boundaries before it. *)
Definition estimated (i : nat) (st : state F) : Prop :=
  thresholds st !! 0%nat = Some f_zero ∧
  estimates (time_deltas st) (times st)
    = Some (expected_ticks st, expected_bar_value st) ∧
  ∀ j, (1 ≤ j < i)%nat →
    thresholds st !! j
    = threshold_of <$> estimates (time_deltas st) (boundaries_before j (times st)).

(** Before the pass at index [i]: the statistic recorded just after a
    boundary is the sum of the integer 0 and the feature there, and the
    running sum is that 0 when index [i - 1] is a boundary. *)
Definition restarted (i : nat) (st : state F) : Prop :=
  (∀ j, j ∈ times st → (S j < i)%nat →
     thetas st !! S j = f_add (f_of_int 0) <$> target_column !! S j) ∧
  (∀ j, j ∈ times st → S j = i → current_theta st = f_of_int 0).

(** The state once the passes 1 to [k] of the loop are done. *)
Definition state_after (k : nat) : result (state F) :=
  let* st := init target_column initial_expected_ticks initial_bar_size in
  for_range (step smooth target_column initial_expected_ticks) (seq 1 k) st.

(** Before the pass at index [i]: the absolute statistic recorded at an
    index below [i] is [np.abs] of the statistic recorded there. *)
Definition mirrored (i : nat) (st : state F) : Prop :=
  ∀ j, (j < i)%nat → absolute_thetas st !! j = f_abs <$> thetas st !! j.

(** Before the pass at index [i]: the statistic at index 0 is the first
    feature, the statistic just after an index that is not a boundary
    adds the feature there to the statistic before, and the running sum
    is the statistic at [i - 1] when that index is not a boundary. *)
Definition accumulated (i : nat) (st : state F) : Prop :=
  thetas st !! 0%nat = target_column !! 0%nat ∧
  (∀ j s x, (S j < i)%nat → j ∉ times st →
     thetas st !! j = Some s → target_column !! S j = Some x →
     thetas st !! S j = Some (f_add s x)) ∧
  (∀ j, S j = i → j ∉ times st → thetas st !! j = Some (current_theta st)).

(** The running sums of [xs] started from [acc]: one entry per element,
    each adding the element to the sum before. *)
Fixpoint sums_from (acc : F) (xs : list F) : list F :=
  match xs with
  | [] => []
  | x :: xs' => f_add acc x :: sums_from (f_add acc x) xs'
  end.

(** A result with a function applied to its value. *)
Definition rmap {A B : Type} (f : A → B) (r : result A) : result B :=
  match r with
  | Ok a => Ok (f a)
  | Err e => Err e
  end.

(** The state with its four buffers cut to their first [m] entries. *)
Definition truncate (m : nat) (st : state F) : state F :=
  State (take m (absolute_thetas st)) (take m (thresholds st))
    (take m (thetas st)) (take m (grouping_ids st))
    (current_theta st) (current_grouping_id st) (time_deltas st) (times st)
    (previous_time st) (expected_ticks st) (expected_bar_value st).

(** The four buffers hold at least [m] entries. *)
Definition roomy (m : nat) (st : state F) : Prop :=
  (m ≤ length (absolute_thetas st))%nat ∧ (m ≤ length (thresholds st))%nat ∧
  (m ≤ length (thetas st))%nat ∧ (m ≤ length (grouping_ids st))%nat.

(** From index [m] on, a pass leaves the first [m] entries of the
    buffers alone and only appends, to the boundary indices, indices from
    [m] on, and to the time deltas as many entries. *)
Definition extends (m : nat) (st0 st : state F) : Prop :=
  take m (absolute_thetas st) = take m (absolute_thetas st0) ∧
  take m (thresholds st) = take m (thresholds st0) ∧
  take m (thetas st) = take m (thetas st0) ∧
  take m (grouping_ids st) = take m (grouping_ids st0) ∧
  ∃ new_times new_deltas,
    times st = times st0 ++ new_times ∧
    time_deltas st = time_deltas st0 ++ new_deltas ∧
    Forall (λ t, (m ≤ t)%nat) new_times.

(** The ways a pass at index [i] can raise: each is one of the two
    [np.int64] conversions, one of the two smoothing calls, or the [[-1]]
    of what a smoothing call returned. *)
Inductive step_raises (st : state F) (i : nat) : exn → Prop :=
  | raises_span_overflow :
      ¬ (- 2 ^ 63 ≤ Z.of_nat (S (length (time_deltas st))) < 2 ^ 63) →
      step_raises st i OverflowError
  | raises_ticks_smoothing :
      smooth (time_deltas st ++
                [f_of_int (Z.of_nat i - Z.of_nat (previous_time st))])
        (Z.of_nat (S (length (time_deltas st)))) = None →
      step_raises st i NumericError
  | raises_ticks_empty :
      smooth (time_deltas st ++
                [f_of_int (Z.of_nat i - Z.of_nat (previous_time st))])
        (Z.of_nat (S (length (time_deltas st)))) = Some [] →
      step_raises st i IndexError
  | raises_ticks_overflow :
      ¬ (- 2 ^ 63 ≤ initial_expected_ticks < 2 ^ 63) →
      step_raises st i OverflowError
  | raises_bar_smoothing :
      smooth (take i target_column) initial_expected_ticks = None →
      step_raises st i NumericError
  | raises_bar_empty :
      smooth (take i target_column) initial_expected_ticks = Some [] →
      step_raises st i IndexError.

(** Before the pass at index [i], for a series whose feature at index
    [j] is [bad]: every boundary lies before [j] and, once index [j] is
    passed, the running sum and every statistic from [j] on are [bad]. *)
Definition absorbed (bad : F) (j i : nat) (st : state F) : Prop :=
  Forall (λ t, (t < j)%nat) (times st) ∧
  ((j < i)%nat →
     current_theta st = bad ∧
     ∀ k, (j ≤ k < i)%nat → thetas st !! k = Some bad).

(** Reduces the projections of an explicit [State]. *)
Ltac simpl_state :=
  cbn [absolute_thetas thresholds thetas grouping_ids current_theta
       current_grouping_id time_deltas times previous_time expected_ticks
       expected_bar_value] in *.

(** *** Inversion of the primitives *)

Lemma bind_Ok {A B : Type} (c : result A) (k : A → result B) (b : B) :
  bind c k = Ok b → ∃ a, c = Ok a ∧ k a = Ok b.
Proof. destruct c as [a|e]; simpl; [eauto | discriminate]. Qed.

Lemma getitem_Ok {A : Type} (a : list A) i x :
  getitem a i = Ok x → a !! i = Some x.
Proof. unfold getitem. destruct (a !! i); congruence. Qed.

Lemma setitem_Ok {A : Type} (a : list A) i v a' :
  setitem a i v = Ok a' → (i < length a)%nat ∧ a' = <[i:=v]> a.
Proof. unfold setitem. case_decide; [|discriminate]. intros [= <-]. done. Qed.

Lemma getlast_Ok {A : Type} (a : list A) x :
  getlast a = Ok x → last a = Some x.
Proof. unfold getlast. destruct (last a); congruence. Qed.

Lemma np_int64_Ok n m :
  np_int64 n = Ok m → m = n ∧ - 2 ^ 63 ≤ n < 2 ^ 63.
Proof. unfold np_int64. case_decide; [|discriminate]. intros [= <-]. done. Qed.

Lemma for_range_seq_ind {S : Type} (body : S → nat → result S)
    (P : nat → S → Prop) (len lo : nat) (st st' : S) :
  P lo st →
  (∀ i s s', (lo ≤ i < lo + len)%nat → P i s → body s i = Ok s' → P (Datatypes.S i) s') →
  for_range body (seq lo len) st = Ok st' →
  P (lo + len)%nat st'.
Proof.
  revert lo st. induction len as [|len IH]; intros lo st Hst Hbody Hrun.
  - simpl in Hrun. injection Hrun as <-. by rewrite Nat.add_0_r.
  - simpl in Hrun. apply bind_Ok in Hrun as (s1 & Hs1 & Hrun).
    replace (lo + Datatypes.S len)%nat with (Datatypes.S lo + len)%nat by lia.
    apply (IH (Datatypes.S lo) s1); [|intros; eapply Hbody; eauto; lia|done].
    eapply Hbody; eauto. lia.
Qed.

Lemma deltas_snoc prev ts t :
  deltas prev (ts ++ [t]) =
  deltas prev ts ++ [Z.of_nat t - Z.of_nat (default prev (last ts))].
Proof.
  revert prev. induction ts as [|u ts IH]; intros prev; [done|].
  rewrite <- app_comm_cons. cbn [deltas]. rewrite IH, last_cons.
  by destruct (last ts).
Qed.

Lemma deltas_length prev ts : length (deltas prev ts) = length ts.
Proof. revert prev. induction ts; intros; simpl; auto. Qed.

Lemma boundaries_before_snoc j ts t :
  (j ≤ t)%nat → boundaries_before j (ts ++ [t]) = boundaries_before j ts.
Proof.
  intros Hj. unfold boundaries_before.
  rewrite filter_app, filter_cons_False, filter_nil by lia.
  apply app_nil_r.
Qed.

Lemma boundaries_before_all j ts :
  Forall (λ t, (t < j)%nat) ts → boundaries_before j ts = ts.
Proof.
  unfold boundaries_before. induction 1 as [|t ts Ht Hts IH]; [done|].
  by rewrite filter_cons_True, IH.
Qed.

Lemma increasing_from_above lo ts :
  increasing_from lo ts → Forall (λ t, (lo < t)%nat) ts.
Proof.
  revert lo. induction ts as [|t ts IH]; intros lo; simpl; [done|].
  intros [Hlo Hts]. constructor; [done|].
  eapply Forall_impl; [by apply IH|]. simpl. lia.
Qed.

Lemma increasing_from_length lo ts :
  increasing_from lo ts → (lo + length ts ≤ default lo (last ts))%nat.
Proof.
  revert lo. induction ts as [|t ts IH]; intros lo; simpl; [lia|].
  intros [Hlo Hts]. specialize (IH t Hts).
  replace (default lo (last (t :: ts))) with (default t (last ts)); [lia|].
  rewrite last_cons. by destruct (last ts).
Qed.

Lemma boundaries_before_none j ts :
  Forall (λ t, (j ≤ t)%nat) ts → boundaries_before j ts = [].
Proof.
  unfold boundaries_before. induction 1 as [|t ts Ht Hts IH]; [done|].
  by rewrite filter_cons_False by lia.
Qed.

Lemma boundaries_before_mono i j ts :
  (i ≤ j)%nat →
  (length (boundaries_before i ts) ≤ length (boundaries_before j ts))%nat.
Proof.
  intros Hij. unfold boundaries_before.
  induction ts as [|t ts IH]; [done|].
  destruct (decide (t < i)%nat).
  - rewrite !filter_cons_True by lia. simpl. lia.
  - rewrite (filter_cons_False (λ t, (t < i)%nat)) by done.
    destruct (decide (t < j)%nat).
    + rewrite filter_cons_True by done. simpl. lia.
    + by rewrite filter_cons_False by done.
Qed.

(** In an increasing list, the boundary at position [k] has exactly [k]
    boundaries before it. *)
Lemma boundaries_before_position lo ts k i :
  increasing_from lo ts → ts !! k = Some i →
  length (boundaries_before i ts) = k ∧
  length (boundaries_before (S i) ts) = S k.
Proof.
  revert lo k. induction ts as [|t ts IH]; intros lo k; [done|].
  simpl. intros [Hlo Hts] Hk. unfold boundaries_before in *.
  destruct k as [|k]; simpl in Hk.
  - injection Hk as ->. apply increasing_from_above in Hts.
    rewrite filter_cons_False by lia. rewrite filter_cons_True by lia.
    fold (boundaries_before i ts). fold (boundaries_before (S i) ts).
    rewrite !boundaries_before_none; [done| |].
    all: eapply Forall_impl; [done|]; simpl; lia.
  - assert (t < i)%nat as Hti.
    { apply increasing_from_above in Hts. rewrite Forall_forall in Hts.
      apply Hts. by eapply list_elem_of_lookup_2. }
    rewrite !filter_cons_True by lia. simpl.
    destruct (IH t k Hts Hk) as [-> ->]. done.
Qed.

(** In an increasing list bounded by [m], all boundaries but a possible
    one at [m] itself lie before [m]. *)
Lemma boundaries_before_bound lo m ts :
  increasing_from lo ts → Forall (λ t, (t ≤ m)%nat) ts →
  length ts =
  (length (boundaries_before m ts) + (if decide (m ∈ ts) then 1 else 0))%nat.
Proof.
  revert lo. induction ts as [|t ts IH]; intros lo.
  - intros _ _. by rewrite decide_False by apply not_elem_of_nil.
  - intros [Hlo Hts] Hb. inversion Hb as [|? ? Ht Hb']; subst.
    specialize (IH t Hts Hb'). unfold boundaries_before in *.
    destruct (decide (t < m)%nat) as [Hlt|Hge].
    + rewrite filter_cons_True by done. cbn [length]. rewrite IH.
      destruct (decide (m ∈ ts)) as [Hin|Hin].
      * rewrite decide_True by (by right). lia.
      * rewrite decide_False; [lia|].
        intros [?|?]%elem_of_cons; [lia|done].
    + assert (t = m) as -> by lia.
      rewrite filter_cons_False by done.
      rewrite (decide_True (P := m ∈ m :: ts)) by left.
      destruct ts as [|u ts]; [done|].
      destruct Hts as [? _]. inversion Hb'; subst. lia.
Qed.

Lemma deltas_sum prev ts :
  sum_Z (deltas prev ts) = Z.of_nat (default prev (last ts)) - Z.of_nat prev.
Proof.
  revert prev. induction ts as [|t ts IH]; intros prev; simpl; [lia|].
  fold (sum_Z (deltas t ts)). rewrite IH.
  replace (default prev (last (t :: ts))) with (default t (last ts)); [lia|].
  rewrite last_cons. by destruct (last ts).
Qed.

Lemma deltas_lookup_0 prev ts t :
  ts !! 0%nat = Some t →
  deltas prev ts !! 0%nat = Some (Z.of_nat t - Z.of_nat prev).
Proof. destruct ts; simpl; [done|]. by intros [= ->]. Qed.

Lemma deltas_lookup_S prev ts k p t :
  ts !! k = Some p → ts !! S k = Some t →
  deltas prev ts !! S k = Some (Z.of_nat t - Z.of_nat p).
Proof.
  revert prev k. induction ts as [|u ts IH]; intros prev k; [done|].
  destruct k as [|k]; simpl.
  - intros [= ->]. apply deltas_lookup_0.
  - apply IH.
Qed.

(** The primitives raise nothing but their own exception. *)
Lemma bind_Err {A B : Type} (c : result A) (k : A → result B) (e : exn) :
  bind c k = Err e → c = Err e ∨ ∃ a, c = Ok a ∧ k a = Err e.
Proof. destruct c as [a|e']; simpl; [eauto|]. intros [= ->]. by left. Qed.

Lemma getitem_Err {A : Type} (a : list A) i e :
  getitem a i = Err e → e = IndexError.
Proof. unfold getitem. destruct (a !! i); congruence. Qed.

Lemma setitem_Err {A : Type} (a : list A) i v e :
  setitem a i v = Err e → e = IndexError.
Proof. unfold setitem. case_decide; congruence. Qed.

Lemma getlast_Err {A : Type} (a : list A) e :
  getlast a = Err e → e = IndexError.
Proof. unfold getlast. destruct (last a); congruence. Qed.

Lemma np_int64_Err n e : np_int64 n = Err e → e = OverflowError.
Proof. unfold np_int64. case_decide; congruence. Qed.

Lemma setitem_lt {A : Type} (a : list A) i v :
  (i < length a)%nat → setitem a i v = Ok (<[i:=v]> a).
Proof. intros Hi. unfold setitem. by rewrite decide_True. Qed.

Lemma for_range_Err {S : Type} (f : S → nat → result S) (e : exn) :
  (∀ st i, f st i ≠ Err e) → ∀ l st, for_range f l st ≠ Err e.
Proof.
  intros Hf l. induction l as [|i l IH]; intros st; simpl; [done|].
  intros [Hb|(st' & _ & Hb)]%bind_Err; [by eapply Hf|by eapply IH].
Qed.

Lemma forallb_take {A : Type} (p : A → bool) (i : nat) (l : list A) :
  forallb p l = true → forallb p (take i l) = true.
Proof.
  revert i. induction l as [|x l IH]; intros [|i]; simpl; try done.
  intros [-> Hl]%andb_true_iff. simpl. by apply IH.
Qed.

Lemma deltas_positive (n prev : nat) (ts : list nat) :
  increasing_from prev ts → Forall (λ t, (t < n)%nat) ts →
  Forall (λ d, 0 < d < Z.of_nat n) (deltas prev ts).
Proof.
  revert prev. induction ts as [|t ts IH]; intros prev; simpl; [done|].
  intros [Hlt Hinc] Hb. inversion Hb; subst.
  constructor; [lia|]. by apply IH.
Qed.

(** *** One pass of the loop *)

Abbreviation body := (step smooth target_column initial_expected_ticks).
Abbreviation loop := (scan smooth target_column initial_expected_ticks).

Lemma smoothing_Ok (xs : list F) (w : Z) (out : list F) :
  exponential_weighted_moving_average smooth xs w = Ok out →
  smooth xs w = Some out.
Proof.
  unfold exponential_weighted_moving_average.
  destruct (smooth xs w); congruence.
Qed.

Lemma step_inv st i st' : body st i = Ok st' → step_to st i st'.
Proof.
  unfold step. intros Hs.
  apply bind_Ok in Hs as (x & Hx%getitem_Ok & Hs).
  apply bind_Ok in Hs as (a1 & [? ->]%setitem_Ok & Hs).
  apply bind_Ok in Hs as (a2 & [? ->]%setitem_Ok & Hs).
  apply bind_Ok in Hs as (a3 & [? ->]%setitem_Ok & Hs).
  apply bind_Ok in Hs as (a4 & [? ->]%setitem_Ok & Hs).
  destruct (f_ge _ _) eqn:Hge.
  - apply bind_Ok in Hs as (n1 & [-> ?]%np_int64_Ok & Hs).
    apply bind_Ok in Hs as (s1 & Hs1%smoothing_Ok & Hs).
    apply bind_Ok in Hs as (e1 & He1%getlast_Ok & Hs).
    apply bind_Ok in Hs as (n2 & [-> ?]%np_int64_Ok & Hs).
    apply bind_Ok in Hs as (s2 & Hs2%smoothing_Ok & Hs).
    apply bind_Ok in Hs as (e2 & He2%getlast_Ok & Hs).
    injection Hs as <-. by eapply step_boundary.
  - injection Hs as <-. by eapply step_quiet.
Qed.

Lemma smoothing_Err (xs : list F) (w : Z) (e : exn) :
  exponential_weighted_moving_average smooth xs w = Err e → e = NumericError.
Proof.
  unfold exponential_weighted_moving_average.
  destruct (smooth xs w); congruence.
Qed.

Ltac raised H :=
  first [ apply getitem_Err in H | apply setitem_Err in H
        | apply getlast_Err in H | apply np_int64_Err in H
        | apply smoothing_Err in H ];
  discriminate H.

Lemma step_no_InvalidInput st i : body st i ≠ Err InvalidInput.
Proof.
  unfold step. intros Hs.
  repeat (apply bind_Err in Hs as [Hs|(? & _ & Hs)]; [raised Hs|]).
  destruct (f_ge _ _); [|discriminate].
  repeat (apply bind_Err in Hs as [Hs|(? & _ & Hs)]; [raised Hs|]).
  discriminate.
Qed.

Lemma compute_thresholds_no_InvalidInput :
  compute_thresholds smooth target_column initial_expected_ticks
    initial_bar_size ≠ Err InvalidInput.
Proof.
  unfold compute_thresholds. intros Hs.
  apply bind_Err in Hs as [Hs|(st0 & _ & Hs)].
  - unfold init in Hs.
    repeat (apply bind_Err in Hs as [Hs|(? & _ & Hs)]; [raised Hs|]).
    discriminate.
  - apply bind_Err in Hs as [Hs|(st & _ & Hs)]; [|discriminate].
    revert Hs. apply for_range_Err. apply step_no_InvalidInput.
Qed.

Lemma init_inv st0 :
  init target_column initial_expected_ticks initial_bar_size = Ok st0 →
  ∃ x0, target_column !! 0%nat = Some x0 ∧
    st0 = State
      (<[0%nat:=f_abs x0]> (replicate (length target_column) f_zero))
      (replicate (length target_column) f_zero)
      (<[0%nat:=x0]> (replicate (length target_column) f_zero))
      (<[0%nat:=f_of_int 0]> (replicate (length target_column) f_zero))
      x0 0 [] [] 0 (f_of_int initial_expected_ticks) initial_bar_size.
Proof.
  unfold init. intros Hs.
  apply bind_Ok in Hs as (x & Hx%getitem_Ok & Hs).
  apply bind_Ok in Hs as (a1 & [? ->]%setitem_Ok & Hs).
  apply bind_Ok in Hs as (a2 & [? ->]%setitem_Ok & Hs).
  apply bind_Ok in Hs as (a3 & [? ->]%setitem_Ok & Hs).
  injection Hs as <-. eauto.
Qed.

Lemma compute_thresholds_inv out :
  compute_thresholds smooth target_column initial_expected_ticks
    initial_bar_size = Ok out →
  ∃ st0 st,
    init target_column initial_expected_ticks initial_bar_size = Ok st0 ∧
    loop st0 = Ok st ∧ out = returned st.
Proof.
  unfold compute_thresholds. intros Hs.
  apply bind_Ok in Hs as (st0 & Hinit & Hs).
  apply bind_Ok in Hs as (st & Hscan & Hs).
  injection Hs as <-. eauto.
Qed.

(** Induction over the loop: a property of the state before the loop
    that every successful pass carries from index [i] to [i + 1] holds,
    at index [k + 1], of the state after the passes 1 to [k]. *)
Lemma loop_ind (P : nat → state F → Prop) (k : nat) st0 st :
  P 1%nat st0 →
  (∀ i s s', (1 ≤ i)%nat → P i s → step_to s i s' → P (S i) s') →
  for_range body (seq 1 k) st0 = Ok st →
  P (S k) st.
Proof.
  intros H0 Hstep Hrun.
  change (S k) with (1 + k)%nat.
  eapply for_range_seq_ind; [exact H0| |exact Hrun].
  intros i s s' Hi Hs Hbody. apply (Hstep i s s'); [lia|done|].
  by apply step_inv.
Qed.

(** *** The shape of the state *)

Lemma increasing_from_snoc lo ts t :
  increasing_from lo ts → (default lo (last ts) < t)%nat →
  increasing_from lo (ts ++ [t]).
Proof.
  revert lo. induction ts as [|u ts IH]; intros lo; simpl; [done|].
  intros [Hlo Hts] Ht. split; [done|]. apply IH; [done|].
  rewrite last_cons in Ht. by destruct (last ts).
Qed.

Lemma last_bound (i d : nat) (ts : list nat) :
  Forall (λ t, (t < i)%nat) ts → (d < i)%nat → (default d (last ts) < i)%nat.
Proof.
  intros Hts Hd. destruct (last ts) as [t|] eqn:Hl; [|done].
  apply last_Some in Hl as [ts' ->].
  apply Forall_app in Hts as [_ Ht]. by inversion Ht.
Qed.

Lemma shape_init st0 :
  init target_column initial_expected_ticks initial_bar_size = Ok st0 →
  (1 ≤ length target_column)%nat ∧ shape 1 st0.
Proof.
  intros (x0 & Hx0 & ->)%init_inv.
  split; [apply lookup_lt_Some in Hx0; lia|].
  split; simpl; rewrite ?length_insert, ?length_replicate; done.
Qed.

Lemma shape_step i st st' :
  (1 ≤ i)%nat → shape i st → step_to st i st' → shape (S i) st'.
Proof.
  intros Hi [] Hstep.
  destruct Hstep; split; simpl; rewrite ?length_insert; try done.
  - eapply Forall_impl; [done|]. simpl. lia.
  - rewrite deltas_snoc, fmap_app. simpl. congruence.
  - rewrite length_app. simpl. lia.
  - by rewrite last_snoc.
  - apply increasing_from_snoc; [done|]. apply last_bound; [done|lia].
  - apply Forall_app. split; [|by repeat constructor].
    eapply Forall_impl; [done|]. simpl. lia.
Qed.

Lemma shape_loop k st0 st :
  shape 1 st0 → for_range body (seq 1 k) st0 = Ok st → shape (S k) st.
Proof.
  intros H0. apply (loop_ind shape); [done|].
  intros i s s' Hi. by apply shape_step.
Qed.

Lemma shape_length_time_deltas i st :
  shape i st → length (time_deltas st) = length (times st).
Proof. intros []. by rewrite shape_time_deltas0, length_fmap, deltas_length. Qed.

(** Induction over the loop with the shape of the state at hand. *)
Lemma loop_ind_shape (P : nat → state F → Prop) (k : nat) st0 st :
  shape 1 st0 → P 1%nat st0 →
  (∀ i s s', (1 ≤ i)%nat → shape i s → P i s → step_to s i s' → P (S i) s') →
  for_range body (seq 1 k) st0 = Ok st →
  P (S k) st.
Proof.
  intros Hsh H0 Hstep Hrun.
  enough (shape (S k) st ∧ P (S k) st) as [_ ?]; [done|].
  revert Hrun. apply (loop_ind (λ i s, shape i s ∧ P i s)); [done|].
  intros i s s' Hi [? ?] ?. split; [by eapply shape_step|by eapply Hstep].
Qed.

(** *** Boundaries are exactly the indices where the trigger held *)

Lemma exact_step i st st' :
  (1 ≤ i)%nat → shape i st → exact i st → step_to st i st' → exact (S i) st'.
Proof.
  intros Hi Hsh Hex Hstep j Hj.
  assert (i ∉ times st) as Hni.
  { intros Hin. destruct Hsh as [_ _ _ _ _ _ _ _ Hb].
    rewrite Forall_forall in Hb. apply Hb in Hin. lia. }
  unfold triggered.
  destruct Hstep as [x Hx ? Ha Ht ? Hge|x s1 e1 s2 e2 Hx ? Ha Ht ? Hge]; simpl_state.
  all: destruct (decide (j = i)) as [->|Hne].
  all: rewrite ?list_lookup_insert_eq by done.
  all: rewrite ?list_lookup_insert_ne by done.
  - split; [done|]. intros (a & t & [= <-] & [= <-] & Hge'). congruence.
  - apply Hex. lia.
  - split; [eauto|]. intros _. apply elem_of_app. right.
    by apply list_elem_of_singleton.
  - rewrite elem_of_app, list_elem_of_singleton.
    rewrite <- (Hex j) by lia. tauto.
Qed.

(** *** Group identifiers count the boundaries declared before *)

Lemma counted_step i st st' :
  (1 ≤ i)%nat → shape i st → counted i st → step_to st i st' →
  counted (S i) st'.
Proof.
  intros Hi Hsh Hc Hstep j Hj.
  pose proof (shape_bound _ _ Hsh) as Hb.
  pose proof (shape_grouping_id _ _ Hsh) as Hg.
  destruct Hstep as [x Hx ? ? ? Hid Hge|x s1 e1 s2 e2 Hx ? ? ? Hid Hge]; simpl_state.
  all: rewrite ?boundaries_before_snoc by lia.
  all: destruct (decide (j = i)) as [->|Hne].
  all: rewrite ?list_lookup_insert_eq by done.
  all: rewrite ?list_lookup_insert_ne by done.
  all: try (apply Hc; lia).
  all: by rewrite boundaries_before_all, Hg.
Qed.

(** *** Thresholds are the product of the estimates in effect *)

Lemma estimates_snoc tds d ts :
  (length ts ≤ length tds)%nat →
  estimates (tds ++ [d]) ts = estimates tds ts.
Proof. intros Hl. unfold estimates. by rewrite take_app_le. Qed.

Lemma estimates_boundary tds ts t ticks_avg ticks_last bar_avg bar_last :
  last ts = Some t →
  smooth (take (length ts) tds) (Z.of_nat (length ts)) = Some ticks_avg →
  last ticks_avg = Some ticks_last →
  smooth (take t target_column) initial_expected_ticks = Some bar_avg →
  last bar_avg = Some bar_last →
  estimates tds ts = Some (ticks_last, f_abs bar_last).
Proof.
  unfold estimates, smoothed_last. intros -> -> Hl1 -> Hl2. simpl.
  rewrite Hl1. simpl. by rewrite Hl2.
Qed.

Lemma estimated_step i st st' :
  (1 ≤ i)%nat → shape i st → estimated i st → step_to st i st' →
  estimated (S i) st'.
Proof.
  intros Hi Hsh (H0 & Hcur & Hprev) Hstep.
  pose proof (shape_bound _ _ Hsh) as Hb.
  pose proof (shape_length_time_deltas _ _ Hsh) as Hl.
  assert (∀ j, (j ≤ i)%nat →
    (length (boundaries_before j (times st)) ≤ length (time_deltas st))%nat)
    as Hle.
  { intros j _. rewrite Hl. apply length_filter. }
  unfold estimated.
  destruct Hstep as [x Hx ? ? Ht Hid Hge|x s1 e1 s2 e2 Hx ? ? Ht Hid Hge
    Hs1 He1 Hw Hs2 He2]; simpl_state.
  - split; [by rewrite list_lookup_insert_ne by lia|]. split; [done|].
    intros j Hj. destruct (decide (j = i)) as [->|Hne].
    + rewrite list_lookup_insert_eq by done.
      by rewrite boundaries_before_all, Hcur.
    + rewrite list_lookup_insert_ne by done. apply Hprev. lia.
  - split; [by rewrite list_lookup_insert_ne by lia|]. split.
    + assert (length (times st ++ [i]) = length (time_deltas st ++
           [f_of_int (Z.of_nat i - Z.of_nat (previous_time st))])) as Hl'
        by (rewrite !length_app; simpl; lia).
      eapply estimates_boundary; [apply last_snoc| |done|done|done].
      rewrite Hl', take_ge by done. exact Hs1.
    + intros j Hj. rewrite boundaries_before_snoc by lia.
      rewrite estimates_snoc by (apply Hle; lia).
      destruct (decide (j = i)) as [->|Hne].
      * rewrite list_lookup_insert_eq by done.
        by rewrite boundaries_before_all, Hcur.
      * rewrite list_lookup_insert_ne by done. apply Hprev. lia.
Qed.

(** *** The running sum restarts from zero after a boundary *)

Lemma restarted_step i st st' :
  (1 ≤ i)%nat → shape i st → restarted i st → step_to st i st' →
  restarted (S i) st'.
Proof.
  intros Hi Hsh [Hpast Hnow] Hstep.
  assert (i ∉ times st) as Hni.
  { intros Hin. pose proof (shape_bound _ _ Hsh) as Hb.
    rewrite Forall_forall in Hb. apply Hb in Hin. lia. }
  assert (∀ j x, j ∈ times st → (S j < S i)%nat →
    target_column !! i = Some x → (i < length (thetas st))%nat →
    <[i:=f_add (current_theta st) x]> (thetas st) !! S j
    = f_add (f_of_int 0) <$> target_column !! S j) as Hkey.
  { intros j x Hj Hlt Hx Hlen. destruct (decide (S j = i)) as [<-|Hne].
    - rewrite list_lookup_insert_eq by done.
      rewrite Hx. simpl. by rewrite (Hnow j).
    - rewrite list_lookup_insert_ne by done. apply Hpast; [done|lia]. }
  unfold restarted.
  destruct Hstep as [x Hx ? ? ? ? Hge|x s1 e1 s2 e2 Hx ? ? ? ? Hge]; simpl_state.
  - split; [by eauto|]. intros j Hj [= ->]. done.
  - split; [|done].
    intros j [Hj|Hj%list_elem_of_singleton]%elem_of_app Hlt; [by eauto|lia].
Qed.

(** *** The state after each pass *)

Lemma compute_thresholds_state_after :
  compute_thresholds smooth target_column initial_expected_ticks
    initial_bar_size
  = let* st := state_after (length target_column - 1) in Ok (returned st).
Proof.
  unfold compute_thresholds, state_after, scan.
  by destruct (init target_column initial_expected_ticks initial_bar_size).
Qed.

Lemma for_range_app {S : Type} (f : S → nat → result S) (l1 l2 : list nat) st :
  for_range f (l1 ++ l2) st
  = let* st' := for_range f l1 st in for_range f l2 st'.
Proof.
  revert st. induction l1 as [|i l1 IH]; intros st; simpl; [done|].
  destruct (f st i); simpl; [apply IH|done].
Qed.

Lemma state_after_S k :
  state_after (S k) = let* st := state_after k in body st (S k).
Proof.
  unfold state_after.
  destruct (init target_column initial_expected_ticks initial_bar_size) as [st0|];
    [|done].
  cbn [bind]. rewrite seq_S, for_range_app.
  destruct (for_range body (seq 1 k) st0) as [st|]; [|done].
  cbn [bind for_range]. change (1 + k)%nat with (S k).
  by destruct (body st (S k)).
Qed.

Lemma state_after_Err k m e :
  state_after k = Err e → state_after (k + m) = Err e.
Proof.
  intros He. induction m as [|m IH]; [by rewrite Nat.add_0_r|].
  by rewrite Nat.add_succ_r, state_after_S, IH.
Qed.

Lemma init_invariants st0 :
  init target_column initial_expected_ticks initial_bar_size = Ok st0 →
  exact 1 st0 ∧ counted 1 st0 ∧ estimated 1 st0 ∧ restarted 1 st0.
Proof.
  intros Hinit. pose proof Hinit as [Hn _]%shape_init.
  apply init_inv in Hinit as (x0 & Hx0 & ->).
  split; [intros j ?; lia|]. split; [|split].
  - intros j Hj. assert (j = 0%nat) as -> by lia. simpl.
    by rewrite list_lookup_insert_eq by (rewrite length_replicate; lia).
  - split; [|split]; simpl.
    + apply lookup_replicate_2. lia.
    + done.
    + intros j ?; lia.
  - split; simpl; intros j Hj; by apply elem_of_nil in Hj.
Qed.

(** All the invariants at once, for the state after pass [k]. *)
Lemma state_after_invariants k st :
  state_after k = Ok st →
  (1 ≤ length target_column)%nat ∧ shape (S k) st ∧ exact (S k) st ∧
  counted (S k) st ∧ estimated (S k) st ∧ restarted (S k) st.
Proof.
  unfold state_after. intros (st0 & Hinit & Hrun)%bind_Ok.
  pose proof Hinit as [Hn Hsh]%shape_init.
  pose proof Hinit as (Hex & Hco & Hes & Hre)%init_invariants.
  split; [done|]. split; [by eapply shape_loop|].
  split; [|split; [|split]].
  - revert Hrun. apply (loop_ind_shape exact); [done|done|].
    intros. by eapply exact_step.
  - revert Hrun. apply (loop_ind_shape counted); [done|done|].
    intros. by eapply counted_step.
  - revert Hrun. apply (loop_ind_shape estimated); [done|done|].
    intros. by eapply estimated_step.
  - revert Hrun. apply (loop_ind_shape restarted); [done|done|].
    intros. by eapply restarted_step.
Qed.

(** The same for the returned sequences. *)
Lemma compute_thresholds_invariants out :
  compute_thresholds smooth target_column initial_expected_ticks
    initial_bar_size = Ok out →
  ∃ st, out = returned st ∧
    (1 ≤ length target_column)%nat ∧
    shape (length target_column) st ∧ exact (length target_column) st ∧
    counted (length target_column) st ∧
    estimated (length target_column) st ∧
    restarted (length target_column) st.
Proof.
  rewrite compute_thresholds_state_after.
  intros (st & Hst & [= <-])%bind_Ok. exists st. split; [done|].
  pose proof (state_after_invariants _ _ Hst) as (Hn & Hinv).
  split; [done|].
  by replace (S (length target_column - 1)) with (length target_column)
    in Hinv by lia.
Qed.

(** *** The call returns on finite input *)

(** With a smoothing primitive that returns a non-empty sequence on every
    non-empty window of finite values, every pass of the loop over a
    finite series succeeds, and the call returns its six sequences. *)
Lemma state_after_returns k :
  (∀ xs span, xs ≠ [] → forallb f_isfinite xs = true →
     ∃ out, smooth xs span = Some out ∧ out ≠ []) →
  (∀ d : Z, 0 < d < Z.of_nat (length target_column) →
     f_isfinite (f_of_int d) = true) →
  forallb f_isfinite target_column = true →
  - 2 ^ 63 ≤ initial_expected_ticks < 2 ^ 63 →
  Z.of_nat (length target_column) < 2 ^ 63 →
  (k < length target_column)%nat →
  ∃ st, state_after k = Ok st.
Proof.
  intros Hsmooth Hint Hfin Hw Hn. induction k as [|k IH]; intros Hk.
  - unfold state_after, init, getitem.
    destruct (lookup_lt_is_Some_2 target_column 0 Hk) as [x0 ->].
    cbn [bind]. rewrite !setitem_lt by (by rewrite length_replicate).
    cbn [bind for_range seq]. eauto.
  - destruct IH as [st Hst]; [lia|].
    rewrite state_after_S, Hst. cbn [bind].
    pose proof (state_after_invariants _ _ Hst) as (_ & Hsh & _).
    destruct (lookup_lt_is_Some_2 target_column (S k) Hk) as [x Hx].
    unfold step, getitem. rewrite Hx. cbn [bind].
    rewrite !setitem_lt by (by destruct Hsh; lia). cbn [bind].
    destruct (f_ge _ _); [|eauto].
    pose proof (shape_length_time_deltas _ _ Hsh) as Hl.
    pose proof (shape_bound _ _ Hsh) as Hb.
    pose proof (shape_increasing _ _ Hsh) as Hinc.
    assert (length (times st) < S k)%nat as Hcount.
    { pose proof (increasing_from_length _ _ Hinc).
      pose proof (last_bound (S k) 0 (times st) Hb). lia. }
    unfold np_int64. rewrite decide_True
      by (rewrite length_app; simpl; lia). cbn [bind].
    unfold exponential_weighted_moving_average.
    destruct (Hsmooth
      (time_deltas st ++
         [f_of_int (Z.of_nat (S k) - Z.of_nat (previous_time st))])
      (Z.of_nat (length (time_deltas st ++
         [f_of_int (Z.of_nat (S k) - Z.of_nat (previous_time st))]))))
      as (s1 & -> & Hs1).
    { by destruct (time_deltas st). }
    { rewrite forallb_app. apply andb_true_iff. split.
      - rewrite (shape_time_deltas _ _ Hsh).
        assert (Forall (λ d, 0 < d < Z.of_nat (length target_column))
                  (deltas 0 (times st))) as Hd.
        { apply deltas_positive; [done|].
          eapply Forall_impl; [done|]. simpl. lia. }
        induction Hd as [|d ds Hd Hds IHd]; [done|]. simpl.
        rewrite Hint by done. exact IHd.
      - simpl. rewrite Hint; [done|].
        rewrite (shape_previous_time _ _ Hsh).
        pose proof (last_bound (S k) 0 (times st) Hb). lia. }
    cbn [bind]. unfold getlast.
    destruct (last s1) as [e1|] eqn:He1;
      [|by apply last_None in He1].
    cbn [bind]. rewrite decide_True by done. cbn [bind].
    destruct (Hsmooth (take (S k) target_column) initial_expected_ticks)
      as (s2 & -> & Hs2).
    { destruct target_column; [simpl in Hk; lia|done]. }
    { by apply forallb_take. }
    cbn [bind].
    destruct (last s2) as [e2|] eqn:He2;
      [|by apply last_None in He2].
    cbn [bind]. eauto.
Qed.

(** X15: the call returns on every non-empty series of finite values,
    when the smoothing primitive returns a non-empty sequence on every
    non-empty window of finite values, every integer from 1 to
    len(features) - 1 converts to a finite scalar, and
    initial_expected_ticks and the length of the series are in the range
    of [np.int64]. *)
Lemma compute_thresholds_returns :
  (∀ xs span, xs ≠ [] → forallb f_isfinite xs = true →
     ∃ out, smooth xs span = Some out ∧ out ≠ []) →
  (∀ d : Z, 0 < d < Z.of_nat (length target_column) →
     f_isfinite (f_of_int d) = true) →
  forallb f_isfinite target_column = true →
  - 2 ^ 63 ≤ initial_expected_ticks < 2 ^ 63 →
  Z.of_nat (length target_column) < 2 ^ 63 →
  target_column ≠ [] →
  ∃ out, compute_thresholds smooth target_column initial_expected_ticks
           initial_bar_size = Ok out.
Proof.
  intros Hsmooth Hint Hfin Hw Hn Hne.
  destruct (state_after_returns (length target_column - 1))
    as [st Hst]; try done.
  { destruct target_column; [done|simpl; lia]. }
  rewrite compute_thresholds_state_after, Hst. simpl. eauto.
Qed.

(** *** Statistics and their absolute values *)

Lemma mirrored_step i st st' :
  (1 ≤ i)%nat → shape i st → mirrored i st → step_to st i st' →
  mirrored (S i) st'.
Proof.
  intros Hi Hsh Hm Hstep j Hj.
  destruct Hstep as [x Hx ? ? ? ? Hge|x s1 e1 s2 e2 Hx ? ? ? ? Hge]; simpl_state.
  all: destruct (decide (j = i)) as [->|Hne].
  all: rewrite ?list_lookup_insert_eq by done.
  all: rewrite ?list_lookup_insert_ne by done.
  all: first [ done | apply Hm; lia ].
Qed.

Lemma accumulated_step i st st' :
  (1 ≤ i)%nat → shape i st → accumulated i st → step_to st i st' →
  accumulated (S i) st'.
Proof.
  intros Hi Hsh (H0 & Hpast & Hnow) Hstep.
  assert (i ∉ times st) as Hni.
  { intros Hin. pose proof (shape_bound _ _ Hsh) as Hb.
    rewrite Forall_forall in Hb. apply Hb in Hin. lia. }
  assert (∀ j s x v, (S j < S i)%nat → j ∉ times st →
    (i < length (thetas st))%nat →
    target_column !! i = Some v →
    <[i:=f_add (current_theta st) v]> (thetas st) !! j = Some s →
    target_column !! S j = Some x →
    <[i:=f_add (current_theta st) v]> (thetas st) !! S j = Some (f_add s x))
    as Hkey.
  { intros j s x v Hj Hnj Hlen Hv Hs Hx.
    rewrite list_lookup_insert_ne in Hs by lia.
    destruct (decide (S j = i)) as [<-|Hne].
    - rewrite list_lookup_insert_eq by done.
      rewrite (Hnow j eq_refl Hnj) in Hs. congruence.
    - rewrite list_lookup_insert_ne by done.
      apply (Hpast j s x); [lia|done|done|done]. }
  unfold accumulated.
  destruct Hstep as [x Hx ? ? ? ? Hge|x s1 e1 s2 e2 Hx ? ? ? ? Hge]; simpl_state.
  - split; [by rewrite list_lookup_insert_ne by lia|]. split.
    + intros j s v Hj Hnj. by apply Hkey.
    + intros j [= ->] _. by apply list_lookup_insert_eq.
  - split; [by rewrite list_lookup_insert_ne by lia|]. split.
    + intros j s v Hj Hnj. apply Hkey; [done| |done|done].
      intros Hin. apply Hnj, elem_of_app. by left.
    + intros j [= ->] Hnj. exfalso. apply Hnj, elem_of_app. right. by left.
Qed.

Lemma state_after_statistics k st :
  state_after k = Ok st → mirrored (S k) st ∧ accumulated (S k) st.
Proof.
  unfold state_after. intros (st0 & Hinit & Hrun)%bind_Ok.
  pose proof Hinit as [Hn Hsh]%shape_init.
  apply init_inv in Hinit as (x0 & Hx0 & ->).
  split.
  - revert Hrun. apply (loop_ind_shape mirrored); [done| |].
    + intros j Hj. assert (j = 0%nat) as -> by lia. simpl.
      by rewrite !list_lookup_insert_eq by (rewrite length_replicate; lia).
    + intros. by eapply mirrored_step.
  - revert Hrun. apply (loop_ind_shape accumulated); [done| |].
    + split; [|split]; simpl.
      * by rewrite list_lookup_insert_eq by (rewrite length_replicate; lia).
      * intros; lia.
      * intros j [= ->] _.
        by rewrite list_lookup_insert_eq by (rewrite length_replicate; lia).
    + intros. by eapply accumulated_step.
Qed.

Lemma compute_thresholds_statistics out :
  compute_thresholds smooth target_column initial_expected_ticks
    initial_bar_size = Ok out →
  ∃ st, out = returned st ∧
    shape (length target_column) st ∧
    mirrored (length target_column) st ∧
    accumulated (length target_column) st.
Proof.
  rewrite compute_thresholds_state_after.
  intros (st & Hst & [= <-])%bind_Ok. exists st. split; [done|].
  pose proof (state_after_invariants _ _ Hst) as (Hn & Hsh & _).
  pose proof (state_after_statistics _ _ Hst) as Hstat.
  by replace (S (length target_column - 1)) with (length target_column)
    in Hsh, Hstat by lia.
Qed.

(** *** Lists of increasing boundaries, continued *)

Lemma boundaries_before_S i ts :
  i ∉ ts → boundaries_before (S i) ts = boundaries_before i ts.
Proof.
  unfold boundaries_before. induction ts as [|t ts IH]; [done|].
  intros Hni. apply not_elem_of_cons in Hni as [Hne Hni].
  destruct (decide (t < i)%nat).
  - rewrite !filter_cons_True by lia. by rewrite IH.
  - rewrite !filter_cons_False by lia. by apply IH.
Qed.

Lemma increasing_from_lookup lo ts k l a b :
  increasing_from lo ts → (k < l)%nat →
  ts !! k = Some a → ts !! l = Some b → (a < b)%nat.
Proof.
  revert lo k l. induction ts as [|t ts IH]; intros lo k l; [done|].
  intros [Hlo Hts] Hkl Hk Hl. destruct l as [|l]; [lia|]. simpl in Hl.
  destruct k as [|k]; simpl in Hk.
  - injection Hk as ->. apply increasing_from_above in Hts.
    rewrite Forall_forall in Hts. apply Hts.
    by eapply list_elem_of_lookup_2.
  - apply (IH t k l); [done|lia|done|done].
Qed.

(** *** A scan without boundaries *)

Lemma sums_from_length acc xs : length (sums_from acc xs) = length xs.
Proof. revert acc. induction xs; intros; simpl; auto. Qed.

Lemma init_cons x0 rest :
  init (x0 :: rest) initial_expected_ticks initial_bar_size
  = Ok (State ([f_abs x0] ++ replicate (length rest) f_zero)
          ([f_zero] ++ replicate (length rest) f_zero)
          ([x0] ++ replicate (length rest) f_zero)
          ([f_of_int 0] ++ replicate (length rest) f_zero)
          x0 0 [] [] 0 (f_of_int initial_expected_ticks) initial_bar_size).
Proof.
  unfold init, getitem. change ((x0 :: rest) !! 0%nat) with (Some x0).
  cbn [bind]. rewrite !setitem_lt by (rewrite length_replicate; simpl; lia).
  reflexivity.
Qed.

Lemma setitem_next {A : Type} (pre : list A) (z v : A) (m : nat) :
  setitem (pre ++ replicate (S m) z) (length pre) v
  = Ok ((pre ++ [v]) ++ replicate m z).
Proof.
  rewrite setitem_lt by (rewrite length_app, length_replicate; lia).
  rewrite insert_app_r_alt, Nat.sub_diag by lia.
  by rewrite <- app_assoc.
Qed.

Lemma quiet_loop rest :
  ∀ pre_tc pa pt ps pg cur,
  target_column = pre_tc ++ rest →
  length pa = length pre_tc → length pt = length pre_tc →
  length ps = length pre_tc → length pg = length pre_tc →
  Forall (λ s, f_ge (f_abs s)
                 (f_mul (f_of_int initial_expected_ticks) initial_bar_size)
               = false) (sums_from cur rest) →
  for_range body (seq (length pre_tc) (length rest))
    (State (pa ++ replicate (length rest) f_zero)
       (pt ++ replicate (length rest) f_zero)
       (ps ++ replicate (length rest) f_zero)
       (pg ++ replicate (length rest) f_zero)
       cur 0 [] [] 0 (f_of_int initial_expected_ticks) initial_bar_size)
  = Ok (State (pa ++ (f_abs <$> sums_from cur rest))
          (pt ++ replicate (length rest)
                   (f_mul (f_of_int initial_expected_ticks) initial_bar_size))
          (ps ++ sums_from cur rest)
          (pg ++ replicate (length rest) (f_of_int 0))
          (default cur (last (sums_from cur rest)))
          0 [] [] 0 (f_of_int initial_expected_ticks) initial_bar_size).
Proof.
  induction rest as [|x rest IH];
    intros pre_tc pa pt ps pg cur Htc Ha Ht Hs Hg Hquiet.
  - simpl. by rewrite !app_nil_r.
  - cbn [sums_from] in *. apply Forall_cons in Hquiet as [Hhead Htail].
    cbn [length seq for_range]. unfold step at 1, getitem.
    rewrite Htc at 1. rewrite list_lookup_middle by done.
    cbn [bind]. simpl_state.
    rewrite <- Hs at 1. rewrite setitem_next. cbn [bind].
    rewrite <- Ha at 1. rewrite setitem_next. cbn [bind].
    rewrite <- Ht at 1. rewrite setitem_next. cbn [bind].
    rewrite <- Hg at 1. rewrite setitem_next. cbn [bind].
    rewrite Hhead. simpl_state. cbn [bind].
    replace (S (length pre_tc)) with (length (pre_tc ++ [x]))
      by (rewrite length_app; simpl; lia).
    rewrite (IH (pre_tc ++ [x]));
      [|by rewrite Htc, <- app_assoc|rewrite !length_app; simpl; lia..|done].
    rewrite last_cons, <- !app_assoc. simpl.
    by destruct (last (sums_from (f_add cur x) rest)).
Qed.

(** *** How the call can fail *)

Lemma step_Err i st e :
  shape i st → (i < length target_column)%nat →
  body st i = Err e → step_raises st i e.
Proof.
  intros Hsh Hi. unfold step, getitem.
  destruct (lookup_lt_is_Some_2 target_column i Hi) as [x ->]. cbn [bind].
  rewrite !setitem_lt by (by destruct Hsh; lia). cbn [bind].
  destruct (f_ge _ _); [|done].
  rewrite length_app, Nat.add_1_r.
  unfold np_int64 at 1. case_decide as Hspan;
    [|intros [= <-]; by apply raises_span_overflow].
  cbn [bind]. unfold exponential_weighted_moving_average at 1.
  destruct (smooth (time_deltas st ++ _) _) as [s1|] eqn:Hs1;
    [|intros [= <-]; by apply raises_ticks_smoothing].
  cbn [bind]. unfold getlast at 1.
  destruct (last s1) as [e1|] eqn:He1;
    [|intros [= <-]; apply last_None in He1 as ->;
      by apply raises_ticks_empty].
  cbn [bind]. unfold np_int64. case_decide as Hw;
    [|intros [= <-]; by apply raises_ticks_overflow].
  cbn [bind]. unfold exponential_weighted_moving_average.
  destruct (smooth (take i target_column) _) as [s2|] eqn:Hs2;
    [|intros [= <-]; by apply raises_bar_smoothing].
  cbn [bind]. unfold getlast.
  destruct (last s2) as [e2|] eqn:He2; [done|].
  intros [= <-]. apply last_None in He2 as ->. by apply raises_bar_empty.
Qed.

Lemma state_after_first_Err k e :
  state_after k = Err e →
  init target_column initial_expected_ticks initial_bar_size = Err e ∨
  ∃ j st, (j < k)%nat ∧ state_after j = Ok st ∧ body st (S j) = Err e.
Proof.
  induction k as [|k IH].
  - unfold state_after. left.
    by destruct (init target_column _ _).
  - rewrite state_after_S.
    destruct (state_after k) as [st|e'] eqn:Hk; cbn [bind].
    + intros Hstep. right. exists k, st. split; [lia|done].
    + intros [= ->]. destruct (IH eq_refl) as [?|(j & st & ? & ? & ?)];
        [by left|]. right. exists j, st. split; [lia|done].
Qed.

(** A failing call fails at [target_column[0]] on an empty series, or at
    a pass of the loop in one of the ways of [step_raises]. *)
Lemma compute_thresholds_Err e :
  compute_thresholds smooth target_column initial_expected_ticks
    initial_bar_size = Err e →
  (target_column = [] ∧ e = IndexError) ∨
  ∃ i st, (1 ≤ i < length target_column)%nat ∧ shape i st ∧
    step_raises st i e.
Proof.
  rewrite compute_thresholds_state_after.
  destruct (state_after _) as [st|e'] eqn:Hst; [done|]. intros [= ->].
  apply state_after_first_Err in Hst as [Hinit|(j & st & Hj & Hst & Hstep)].
  - left. unfold init, getitem in Hinit.
    destruct target_column as [|x0 tc]; [by injection Hinit as <-|].
    change ((x0 :: tc) !! 0%nat) with (Some x0) in Hinit. cbn [bind] in Hinit.
    rewrite !setitem_lt in Hinit by (rewrite length_replicate; simpl; lia).
    done.
  - right. exists (S j), st.
    pose proof (state_after_invariants _ _ Hst) as (_ & Hsh & _).
    assert (S j < length target_column)%nat as Hlt by lia.
    split; [lia|]. split; [done|]. by apply step_Err.
Qed.

(** *** A value that absorbs the running sum *)

Lemma absorbed_step (bad : F) j i st st' :
  (∀ x, f_add bad x = bad) → (∀ x, f_add x bad = bad) →
  (∀ t, f_ge (f_abs bad) t = false) →
  target_column !! j = Some bad →
  (1 ≤ i)%nat → shape i st → absorbed bad j i st → step_to st i st' →
  absorbed bad j (S i) st'.
Proof.
  intros Hl Hr Hge Hj Hi Hsh [Htimes Hbad] Hstep.
  assert (j < S i → ∀ x, target_column !! i = Some x →
          f_add (current_theta st) x = bad)%nat as Hsum.
  { intros Hji x Hx. destruct (decide (j = i)) as [->|Hne].
    - rewrite Hj in Hx. injection Hx as <-. apply Hr.
    - destruct Hbad as [-> _]; [lia|]. apply Hl. }
  assert (Forall (λ t, (t < j)%nat) (times st ++ [i]) → (i < j)%nat) as Hin.
  { intros [_ Hlast]%Forall_app. by inversion Hlast. }
  unfold absorbed.
  destruct Hstep as [x Hx Hlen ? ? ? Hq|x s1 e1 s2 e2 Hx Hlen ? ? ? Hq];
    simpl_state.
  - split; [done|]. intros Hji. rewrite (Hsum Hji x Hx). split; [done|].
    intros k Hk. destruct (decide (k = i)) as [->|Hne].
    + by rewrite list_lookup_insert_eq.
    + rewrite list_lookup_insert_ne by done.
      destruct Hbad as [_ Hpast]; [lia|]. apply Hpast. lia.
  - destruct (decide (j < S i)%nat) as [Hji|Hji].
    + rewrite (Hsum Hji x Hx), Hge in Hq. done.
    + split; [|lia]. apply Forall_app. split; [done|].
      repeat constructor. lia.
Qed.

Lemma state_after_absorbed (bad : F) j k st :
  (∀ x, f_add bad x = bad) → (∀ x, f_add x bad = bad) →
  (∀ t, f_ge (f_abs bad) t = false) →
  target_column !! j = Some bad →
  state_after k = Ok st → absorbed bad j (S k) st.
Proof.
  intros Hl Hr Hge Hj. unfold state_after.
  intros (st0 & Hinit & Hrun)%bind_Ok.
  pose proof Hinit as [Hn Hsh]%shape_init.
  apply init_inv in Hinit as (x0 & Hx0 & ->).
  revert Hrun. apply (loop_ind_shape (absorbed bad j)); [done| |].
  - split; simpl; [done|]. intros Hj1. assert (j = 0%nat) as -> by lia.
    rewrite Hj in Hx0. injection Hx0 as <-. split; [done|].
    intros k' Hk'. assert (k' = 0%nat) as -> by lia.
    by rewrite list_lookup_insert_eq by (rewrite length_replicate; lia).
  - intros. by eapply absorbed_step.
Qed.

(** *** Running sums *)

Lemma sums_from_lookup_S acc xs i s x :
  (acc :: sums_from acc xs) !! i = Some s → xs !! i = Some x →
  (acc :: sums_from acc xs) !! S i = Some (f_add s x).
Proof.
  revert acc i. induction xs as [|y xs IH]; intros acc i; [done|].
  destruct i as [|i]; simpl.
  - by intros [= ->] [= ->].
  - apply IH.
Qed.

End SegmenterFacts.

(** ** Properties of the returned sequences *)

Section Results.
Context {F : Type} `{Scalar F}.
Variable smooth : list F → Z → option (list F).

(** C1, as amended: the call validates none of its arguments.  An empty
    feature series fails with the IndexError of [target_column[0]]; a
    series of one value returns the seeded outputs whatever
    initial_expected_ticks and initial_bar_size are; and no input makes
    the call fail with InvalidInput. *)
Theorem no_input_validation (target_column : list F) (x : F)
    (initial_expected_ticks : Z) (initial_bar_size : F) :
  compute_thresholds smooth [] initial_expected_ticks initial_bar_size
    = Err IndexError ∧
  compute_thresholds smooth [x] initial_expected_ticks initial_bar_size
    = Ok ([], [f_abs x], [f_zero], [], [x], [f_of_int 0]) ∧
  compute_thresholds smooth target_column initial_expected_ticks
    initial_bar_size ≠ Err InvalidInput.
Proof.
  split; [done|]. split; [done|].
  apply compute_thresholds_no_InvalidInput.
Qed.

(** C2, as amended: whenever the call returns, every boundary index
    lies in 1 .. len(features) - 1, so index 0 is never one, and an index
    [i >= 1] of the feature series is a boundary index if and only if
    [AbsStatistic[i] >= Threshold[i]]. *)
Theorem boundary_trigger_exact (target_column : list F)
    (initial_expected_ticks : Z) (initial_bar_size : F)
    (time_deltas absolute_thetas thresholds thetas grouping_ids : list F)
    (times : list nat) :
  compute_thresholds smooth target_column initial_expected_ticks
    initial_bar_size
    = Ok (time_deltas, absolute_thetas, thresholds, times, thetas, grouping_ids) →
  (∀ i, i ∈ times → (1 ≤ i < length target_column)%nat) ∧
  (∀ i, (1 ≤ i < length target_column)%nat →
     (i ∈ times ↔ triggered absolute_thetas thresholds i)) ∧
  (∀ i a t, (1 ≤ i < length target_column)%nat → i ∉ times →
     absolute_thetas !! i = Some a → thresholds !! i = Some t →
     f_ge a t = false).
Proof.
  intros (st & [= -> -> -> -> -> ->] & Hn & Hsh & Hex & _)%compute_thresholds_invariants.
  split; [|split].
  - intros i Hi.
    pose proof (increasing_from_above _ _ (shape_increasing _ _ _ Hsh)) as Hpos.
    pose proof (shape_bound _ _ _ Hsh) as Hb.
    rewrite Forall_forall in Hpos, Hb. specialize (Hpos i Hi).
    specialize (Hb i Hi). lia.
  - intros i Hi. by apply Hex.
  - intros i a t Hi Hni Ha Ht. destruct (f_ge a t) eqn:Hge; [|done].
    exfalso. apply Hni, Hex; [done|]. by exists a, t.
Qed.

(** C3, as amended: whenever the call returns, GroupId[j] is the number
    of boundaries declared before index [j], which does not decrease with
    [j]; its final entry is the number of boundaries declared before the
    last index, which is len(TimeDeltas) when the last index is not a
    boundary and len(TimeDeltas) - 1 when it is.  Where the conversion of
    the counts to scalars keeps their order, the recorded scalars are
    non-decreasing under the code's own comparison. *)
Theorem grouping_ids_monotone (target_column : list F)
    (initial_expected_ticks : Z) (initial_bar_size : F)
    (time_deltas absolute_thetas thresholds thetas grouping_ids : list F)
    (times : list nat) :
  compute_thresholds smooth target_column initial_expected_ticks
    initial_bar_size
    = Ok (time_deltas, absolute_thetas, thresholds, times, thetas, grouping_ids) →
  (∀ j, (j < length target_column)%nat →
     grouping_ids !! j
     = Some (f_of_int (Z.of_nat (length (boundaries_before j times))))) ∧
  (∀ i j, (i ≤ j)%nat →
     (length (boundaries_before i times)
      ≤ length (boundaries_before j times))%nat) ∧
  last grouping_ids
    = Some (f_of_int (Z.of_nat
        (length (boundaries_before (length target_column - 1) times)))) ∧
  length (boundaries_before (length target_column - 1) times)
    = (if decide ((length target_column - 1)%nat ∈ times)
       then length time_deltas - 1 else length time_deltas)%nat ∧
  ((∀ a b : nat, (a ≤ b ≤ length time_deltas)%nat →
      f_ge (f_of_int (Z.of_nat b)) (f_of_int (Z.of_nat a)) = true) →
   ∀ i j x y, (i ≤ j)%nat →
     grouping_ids !! i = Some x → grouping_ids !! j = Some y →
     f_ge y x = true).
Proof.
  intros (st & [= -> -> -> -> -> ->] & Hn & Hsh & _ & Hco & _)%compute_thresholds_invariants.
  pose proof (shape_length_time_deltas _ _ _ Hsh) as Hl.
  split; [exact Hco|]. split; [intros; by apply boundaries_before_mono|].
  split; [|split].
  - rewrite last_lookup, (shape_grouping_ids _ _ _ Hsh).
    replace (Init.Nat.pred (length target_column))
      with (length target_column - 1)%nat by lia.
    apply Hco. lia.
  - pose proof (boundaries_before_bound 0 (length target_column - 1)
      (times st) (shape_increasing _ _ _ Hsh)) as Hcount.
    rewrite Hl. destruct (decide _); rewrite Hcount; try lia.
    all: eapply Forall_impl; [apply (shape_bound _ _ _ Hsh)|]; simpl; lia.
  - intros Hmono i j x y Hij Hx Hy.
    assert (j < length target_column)%nat as Hj.
    { rewrite <- (shape_grouping_ids _ _ _ Hsh). by eapply lookup_lt_Some. }
    rewrite Hco in Hx, Hy by lia. injection Hx as <-. injection Hy as <-.
    apply Hmono. split; [by apply boundaries_before_mono|].
    rewrite Hl. apply length_filter.
Qed.

(** C4: whenever the call returns, Threshold[0] is 0 and, for every
    index [i >= 1], Threshold[i] is the product of the two estimates in
    effect once the boundaries before [i] have been declared: the seeds
    initial_expected_ticks and initial_bar_size while there is none, the
    values computed at the most recent of them afterwards. *)
Theorem threshold_is_estimate_product (target_column : list F)
    (initial_expected_ticks : Z) (initial_bar_size : F)
    (time_deltas absolute_thetas thresholds thetas grouping_ids : list F)
    (times : list nat) :
  compute_thresholds smooth target_column initial_expected_ticks
    initial_bar_size
    = Ok (time_deltas, absolute_thetas, thresholds, times, thetas, grouping_ids) →
  thresholds !! 0%nat = Some f_zero ∧
  (∀ i, (1 ≤ i < length target_column)%nat →
     thresholds !! i
     = threshold_of <$>
         estimates smooth target_column initial_expected_ticks
           initial_bar_size time_deltas (boundaries_before i times)) ∧
  (∀ i, (1 ≤ i < length target_column)%nat →
     boundaries_before i times = [] →
     thresholds !! i
     = Some (f_mul (f_of_int initial_expected_ticks) initial_bar_size)).
Proof.
  intros (st & [= -> -> -> -> -> ->] & Hn & Hsh & _ & _ & Hes & _)%compute_thresholds_invariants.
  destruct Hes as (H0 & _ & Hth).
  split; [done|]. split; [done|].
  intros i Hi Hnone. by rewrite Hth, Hnone.
Qed.

(** C5, as amended: when a boundary is declared at index [i], the
    expected-tick-count estimate becomes the last output of the smoothing
    primitive on the full TimeDeltas sequence with span the number of
    boundaries so far, and the expected-bar-magnitude estimate becomes the
    absolute value of the last output of the smoothing primitive on
    [features[:i]], the [i] values at indices 0 to [i - 1], with span
    initial_expected_ticks. *)
Theorem estimates_at_boundary (target_column : list F)
    (initial_expected_ticks : Z) (initial_bar_size : F) (i : nat)
    (st : state F) :
  state_after smooth target_column initial_expected_ticks initial_bar_size i
    = Ok st →
  last (times st) = Some i →
  Some (expected_ticks st)
    = smoothed_last smooth (time_deltas st) (Z.of_nat (length (times st))) ∧
  Some (expected_bar_value st)
    = f_abs <$> smoothed_last smooth (take i target_column)
                  initial_expected_ticks ∧
  length (time_deltas st) = length (times st) ∧
  length (take i target_column) = i.
Proof.
  intros (Hn & Hsh & Hex & _ & Hes & _)%state_after_invariants Hlast.
  pose proof (shape_length_time_deltas _ _ _ Hsh) as Hl.
  destruct Hes as (_ & Hcur & _). unfold estimates in Hcur.
  rewrite Hlast in Hcur. cbv beta iota in Hcur.
  rewrite (take_ge (time_deltas st)) in Hcur by lia.
  destruct (smoothed_last smooth (time_deltas st) _) as [e1|]; [|done].
  destruct (smoothed_last smooth (take i target_column) _) as [e2|]; [|done].
  injection Hcur as <- <-. repeat split; [done|].
  apply length_take_le.
  pose proof (shape_bound _ _ _ Hsh) as Hb.
  apply last_Some in Hlast as [ts' Hts].
  assert (i ∈ times st) as Hin.
  { rewrite Hts. apply elem_of_app. right. by left. }
  destruct (decide (i = 0)%nat) as [->|Hi]; [lia|].
  apply Hex in Hin as (a & t & Ha & _); [|lia].
  apply lookup_lt_Some in Ha.
  rewrite (shape_absolute_thetas _ _ _ Hsh) in Ha. lia.
Qed.

(** Whenever the call returns, for every boundary index [i] with
    [i + 1] an index of the series, Statistic[i+1] is the sum of the
    integer 0, to which the running sum was reset, and features[i+1]:
    nothing of the bar that ended at [i] is carried forward. *)
Lemma statistic_after_boundary (target_column : list F)
    (initial_expected_ticks : Z) (initial_bar_size : F)
    (time_deltas absolute_thetas thresholds thetas grouping_ids : list F)
    (times : list nat) (i : nat) (x : F) :
  compute_thresholds smooth target_column initial_expected_ticks
    initial_bar_size
    = Ok (time_deltas, absolute_thetas, thresholds, times, thetas, grouping_ids) →
  i ∈ times →
  target_column !! S i = Some x →
  thetas !! S i = Some (f_add (f_of_int 0) x).
Proof.
  intros (st & [= -> -> -> -> -> ->] & Hn & Hsh & _ & _ & _ & Hre)%compute_thresholds_invariants.
  intros Hi Hx. destruct Hre as [Hpast _].
  rewrite Hpast, Hx; [done|done|]. by eapply lookup_lt_Some.
Qed.

Lemma sum_deltas_exact (n prev : nat) (ts : list nat) :
  (∀ a b : Z, 0 ≤ a → 0 ≤ b → a + b < Z.of_nat n →
     f_add (f_of_int a) (f_of_int b) = f_of_int (a + b)) →
  increasing_from prev ts → Forall (λ t, (t < n)%nat) ts →
  foldl f_add (f_of_int (Z.of_nat prev)) (f_of_int <$> deltas prev ts)
  = f_of_int (Z.of_nat (default prev (last ts))).
Proof.
  intros Hexact. revert prev. induction ts as [|t ts IH]; intros prev; [done|].
  intros [Hlt Hinc] Hb. inversion Hb as [|? ? Ht Hb']; subst.
  cbn [deltas fmap list_fmap foldl]. rewrite Hexact by lia.
  replace (Z.of_nat prev + (Z.of_nat t - Z.of_nat prev)) with (Z.of_nat t)
    by lia.
  rewrite IH by done. rewrite last_cons. by destruct (last ts).
Qed.

(** C7: whenever the call returns, TimeDeltas[0] is the first boundary
    index minus 0 and TimeDeltas[k] is the difference of the boundary
    indices [k] and [k - 1], each converted to a scalar; the differences
    add up to the last boundary index, and so does Python's sum of
    TimeDeltas where scalar addition is exact on the integers below the
    length of the series. *)
Theorem time_deltas_are_differences (target_column : list F)
    (initial_expected_ticks : Z) (initial_bar_size : F)
    (time_deltas absolute_thetas thresholds thetas grouping_ids : list F)
    (times : list nat) :
  compute_thresholds smooth target_column initial_expected_ticks
    initial_bar_size
    = Ok (time_deltas, absolute_thetas, thresholds, times, thetas, grouping_ids) →
  time_deltas = f_of_int <$> deltas 0 times ∧
  (∀ t, times !! 0%nat = Some t →
     time_deltas !! 0%nat = Some (f_of_int (Z.of_nat t - 0))) ∧
  (∀ k p t, times !! k = Some p → times !! S k = Some t →
     time_deltas !! S k = Some (f_of_int (Z.of_nat t - Z.of_nat p))) ∧
  (∀ t, last times = Some t → sum_Z (deltas 0 times) = Z.of_nat t) ∧
  ((∀ a b : Z, 0 ≤ a → 0 ≤ b → a + b < Z.of_nat (length target_column) →
      f_add (f_of_int a) (f_of_int b) = f_of_int (a + b)) →
   ∀ t, last times = Some t →
     sum_scalars time_deltas = f_of_int (Z.of_nat t)).
Proof.
  intros (st & [= -> -> -> -> -> ->] & Hn & Hsh & _)%compute_thresholds_invariants.
  pose proof (shape_time_deltas _ _ _ Hsh) as Htd.
  split; [done|]. rewrite Htd. split; [|split; [|split]].
  - intros t Ht. by rewrite list_lookup_fmap, (deltas_lookup_0 _ _ t).
  - intros k q t Hq Ht.
    by rewrite list_lookup_fmap, (deltas_lookup_S _ _ _ q t).
  - intros t Ht. rewrite deltas_sum, Ht. simpl. lia.
  - intros Hexact t Ht. unfold sum_scalars.
    change 0 with (Z.of_nat 0).
    rewrite (sum_deltas_exact (length target_column)); [by rewrite Ht|done| |].
    + apply (shape_increasing _ _ _ Hsh).
    + apply (shape_bound _ _ _ Hsh).
Qed.

(** C8: whenever the call returns, the absolute-statistic, threshold,
    statistic and group-identifier sequences all have the length of the
    feature series, and the time-delta and boundary-index sequences have
    the same length as each other. *)
Theorem output_lengths (target_column : list F) (initial_expected_ticks : Z)
    (initial_bar_size : F)
    (time_deltas absolute_thetas thresholds thetas grouping_ids : list F)
    (times : list nat) :
  compute_thresholds smooth target_column initial_expected_ticks
    initial_bar_size
    = Ok (time_deltas, absolute_thetas, thresholds, times, thetas, grouping_ids) →
  length absolute_thetas = length target_column ∧
  length thresholds = length target_column ∧
  length thetas = length target_column ∧
  length grouping_ids = length target_column ∧
  length time_deltas = length times.
Proof.
  intros (st0 & st & Hinit & Hscan & [= -> -> -> -> -> ->])%compute_thresholds_inv.
  apply shape_init in Hinit as [Hn H0].
  pose proof (shape_loop _ _ _ _ _ _ H0 Hscan) as Hsh.
  pose proof (shape_length_time_deltas _ _ _ Hsh) as Hlen.
  destruct Hsh. done.
Qed.

(** C9: with a smoothing primitive that fails with NumericError on
    every window holding a value that is not finite, and otherwise
    returns a sequence as long as its window, and with
    initial_expected_ticks and the length of the series in the range of
    [np.int64]: when the scan reaches an index [i] where the trigger
    holds and [features[:i]], the window of the smoothing call made
    there, holds a value that is not finite, the whole call fails with
    NumericError and returns no sequence. *)
Theorem non_finite_window_fails (target_column : list F)
    (initial_expected_ticks : Z) (initial_bar_size : F) (i : nat)
    (st : state F) (x : F) :
  (∀ xs span, forallb f_isfinite xs = false → smooth xs span = None) →
  (∀ xs span out, smooth xs span = Some out → length out = length xs) →
  - 2 ^ 63 ≤ initial_expected_ticks < 2 ^ 63 →
  Z.of_nat (length target_column) < 2 ^ 63 →
  (1 ≤ i)%nat →
  state_after smooth target_column initial_expected_ticks initial_bar_size
    (i - 1) = Ok st →
  target_column !! i = Some x →
  f_ge (f_abs (f_add (current_theta st) x))
       (f_mul (expected_ticks st) (expected_bar_value st)) = true →
  forallb f_isfinite (take i target_column) = false →
  compute_thresholds smooth target_column initial_expected_ticks
    initial_bar_size = Err NumericError.
Proof.
  intros Hnum Hlen Hw Hn Hi Hst Hx Hge Hwin.
  pose proof (state_after_invariants _ _ _ _ _ _ Hst) as (_ & Hsh & _).
  replace (S (i - 1)) with i in Hsh by lia.
  pose proof (lookup_lt_Some _ _ _ Hx) as Hin.
  assert (step smooth target_column initial_expected_ticks st i
          = Err NumericError) as Hstep.
  { unfold step, getitem. rewrite Hx. cbn [bind].
    rewrite !setitem_lt by (by destruct Hsh; lia). cbn [bind].
    rewrite Hge.
    pose proof (shape_length_time_deltas _ _ _ Hsh) as Hl.
    pose proof (shape_bound _ _ _ Hsh) as Hb.
    assert (length (times st) < i)%nat as Hcount.
    { pose proof (increasing_from_length _ _ (shape_increasing _ _ _ Hsh)).
      pose proof (last_bound i 0 (times st) Hb). lia. }
    unfold np_int64. rewrite decide_True
      by (rewrite length_app; simpl; lia). cbn [bind].
    unfold exponential_weighted_moving_average.
    destruct (smooth (time_deltas st ++ _) _) as [s1|] eqn:Hs1; [|done].
    cbn [bind]. unfold getlast.
    destruct (last s1) as [e1|] eqn:He1.
    - cbn [bind]. rewrite decide_True by done. cbn [bind].
      by rewrite (Hnum _ _ Hwin).
    - apply last_None in He1 as ->. apply Hlen in Hs1.
      rewrite length_app in Hs1. simpl in Hs1. lia. }
  rewrite compute_thresholds_state_after.
  replace (length target_column - 1)%nat
    with (i + (length target_column - 1 - i))%nat by lia.
  rewrite (state_after_Err _ _ _ _ _ _ NumericError); [done|].
  replace i with (S (i - 1)) at 1 by lia.
  rewrite state_after_S, Hst. cbn [bind].
  by replace (S (i - 1)) with i by lia.
Qed.

(** C10: whenever the call returns, the boundary at position [k] of
    BoundaryIndices, at index [i], has GroupId[i] = k, the identifier of
    the bar that ends there; every index up to [i] holds an identifier of
    at most [k], and GroupId[i+1] = k + 1 when index [i+1] exists; index 0
    is not a boundary index, whatever features[0] is. *)
Theorem grouping_id_at_boundary (target_column : list F)
    (initial_expected_ticks : Z) (initial_bar_size : F)
    (time_deltas absolute_thetas thresholds thetas grouping_ids : list F)
    (times : list nat) :
  compute_thresholds smooth target_column initial_expected_ticks
    initial_bar_size
    = Ok (time_deltas, absolute_thetas, thresholds, times, thetas, grouping_ids) →
  (∀ k i, times !! k = Some i →
     grouping_ids !! i = Some (f_of_int (Z.of_nat k)) ∧
     (∀ j, (j ≤ i)%nat → ∃ c, (c ≤ k)%nat ∧
        grouping_ids !! j = Some (f_of_int (Z.of_nat c))) ∧
     ((S i < length target_column)%nat →
        grouping_ids !! S i = Some (f_of_int (Z.of_nat (S k))))) ∧
  0%nat ∉ times.
Proof.
  intros (st & [= -> -> -> -> -> ->] & Hn & Hsh & _ & Hco & _)%compute_thresholds_invariants.
  pose proof (shape_increasing _ _ _ Hsh) as Hinc.
  pose proof (shape_bound _ _ _ Hsh) as Hb.
  split.
  - intros k i Hk.
    destruct (boundaries_before_position _ _ _ _ Hinc Hk) as [Hki HkS].
    assert (i < length target_column)%nat as Hi.
    { rewrite Forall_forall in Hb. apply Hb. by eapply list_elem_of_lookup_2. }
    split; [|split].
    + by rewrite Hco, Hki.
    + intros j Hj. exists (length (boundaries_before j (times st))).
      split; [|apply Hco; lia].
      rewrite <- Hki. by apply boundaries_before_mono.
    + intros HSi. by rewrite Hco, HkS.
  - intros H0. apply increasing_from_above in Hinc.
    rewrite Forall_forall in Hinc. apply Hinc in H0. lia.
Qed.

End Results.

(** ** Further properties of the returned sequences *)

Section Further.
Context {F : Type} `{Scalar F}.
Variable smooth : list F → Z → option (list F).

Ltac simpl_state :=
  cbn [absolute_thetas thresholds thetas grouping_ids current_theta
       current_grouping_id time_deltas times previous_time expected_ticks
       expected_bar_value] in *.

(** X1: whenever the call returns, AbsStatistic[i] is the absolute value
    of Statistic[i] at every index of the series. *)
Theorem absolute_thetas_mirror (target_column : list F)
    (initial_expected_ticks : Z) (initial_bar_size : F)
    (time_deltas absolute_thetas thresholds thetas grouping_ids : list F)
    (times : list nat) :
  compute_thresholds smooth target_column initial_expected_ticks
    initial_bar_size
    = Ok (time_deltas, absolute_thetas, thresholds, times, thetas, grouping_ids) →
  ∀ i, (i < length target_column)%nat →
    ∃ s, thetas !! i = Some s ∧ absolute_thetas !! i = Some (f_abs s).
Proof.
  intros (st & [= -> -> -> -> -> ->] & Hsh & Hm & _)%compute_thresholds_statistics.
  intros i Hi.
  destruct (lookup_lt_is_Some_2 (thetas st) i) as [s Hs].
  { by rewrite (shape_thetas _ _ _ Hsh). }
  exists s. split; [done|]. by rewrite Hm, Hs.
Qed.

(** X2: whenever the call returns, Statistic[0] is features[0], and
    after every index [i] that is not a boundary the statistic keeps
    accumulating: Statistic[i+1] = Statistic[i] + features[i+1]. *)
Theorem statistic_accumulates (target_column : list F)
    (initial_expected_ticks : Z) (initial_bar_size : F)
    (time_deltas absolute_thetas thresholds thetas grouping_ids : list F)
    (times : list nat) :
  compute_thresholds smooth target_column initial_expected_ticks
    initial_bar_size
    = Ok (time_deltas, absolute_thetas, thresholds, times, thetas, grouping_ids) →
  thetas !! 0%nat = target_column !! 0%nat ∧
  ∀ i s x, i ∉ times → thetas !! i = Some s → target_column !! S i = Some x →
    thetas !! S i = Some (f_add s x).
Proof.
  intros (st & [= -> -> -> -> -> ->] & Hsh & _ & Hacc)%compute_thresholds_statistics.
  destruct Hacc as (H0 & Hpast & _). split; [done|].
  intros i s x Hi Hs Hx. apply (Hpast i s x); [|done|done|done].
  by eapply lookup_lt_Some.
Qed.

(** X3: whenever the call returns, BoundaryIndices is strictly
    increasing, there are fewer boundaries than features, and every entry
    of TimeDeltas is the conversion of an integer between 1 and
    len(features) - 1. *)
Theorem boundaries_increase (target_column : list F)
    (initial_expected_ticks : Z) (initial_bar_size : F)
    (time_deltas absolute_thetas thresholds thetas grouping_ids : list F)
    (times : list nat) :
  compute_thresholds smooth target_column initial_expected_ticks
    initial_bar_size
    = Ok (time_deltas, absolute_thetas, thresholds, times, thetas, grouping_ids) →
  (∀ k l a b, (k < l)%nat → times !! k = Some a → times !! l = Some b →
     (a < b)%nat) ∧
  (length times < length target_column)%nat ∧
  (∀ k v, time_deltas !! k = Some v →
     ∃ d, 1 ≤ d < Z.of_nat (length target_column) ∧ v = f_of_int d).
Proof.
  intros (st & [= -> -> -> -> -> ->] & Hn & Hsh & _)%compute_thresholds_invariants.
  pose proof (shape_increasing _ _ _ Hsh) as Hinc.
  pose proof (shape_bound _ _ _ Hsh) as Hb.
  split; [|split].
  - intros k l a b. by apply (increasing_from_lookup 0).
  - pose proof (increasing_from_length _ _ Hinc).
    pose proof (last_bound (length target_column) 0 _ Hb). lia.
  - intros k v. rewrite (shape_time_deltas _ _ _ Hsh), list_lookup_fmap.
    destruct (deltas 0 _ !! k) as [d|] eqn:Hd; [|done].
    intros [= <-]. exists d. split; [|done].
    pose proof (deltas_positive _ _ _ Hinc Hb) as Hpos.
    rewrite Forall_forall in Hpos.
    assert (0 < d < Z.of_nat (length target_column)); [|lia].
    apply Hpos. by eapply list_elem_of_lookup_2.
Qed.

(** X4: whenever the call returns, the group identifier does not change
    after an index that is not a boundary: GroupId[i+1] = GroupId[i]. *)
Theorem grouping_id_between_boundaries (target_column : list F)
    (initial_expected_ticks : Z) (initial_bar_size : F)
    (time_deltas absolute_thetas thresholds thetas grouping_ids : list F)
    (times : list nat) :
  compute_thresholds smooth target_column initial_expected_ticks
    initial_bar_size
    = Ok (time_deltas, absolute_thetas, thresholds, times, thetas, grouping_ids) →
  ∀ i, (S i < length target_column)%nat → i ∉ times →
    grouping_ids !! S i = grouping_ids !! i.
Proof.
  intros (st & [= -> -> -> -> -> ->] & Hn & Hsh & _ & Hco & _)%compute_thresholds_invariants.
  intros i Hi Hni. rewrite !Hco by lia. by rewrite boundaries_before_S.
Qed.

(** X5: whenever the call returns, the threshold does not change after
    an index [i >= 1] that is not a boundary:
    Threshold[i+1] = Threshold[i]. *)
Theorem threshold_between_boundaries (target_column : list F)
    (initial_expected_ticks : Z) (initial_bar_size : F)
    (time_deltas absolute_thetas thresholds thetas grouping_ids : list F)
    (times : list nat) :
  compute_thresholds smooth target_column initial_expected_ticks
    initial_bar_size
    = Ok (time_deltas, absolute_thetas, thresholds, times, thetas, grouping_ids) →
  ∀ i, (1 ≤ i)%nat → (S i < length target_column)%nat → i ∉ times →
    thresholds !! S i = thresholds !! i.
Proof.
  intros (st & [= -> -> -> -> -> ->] & Hn & Hsh & _ & _ & Hes & _)%compute_thresholds_invariants.
  destruct Hes as (_ & _ & Hth).
  intros i H1 Hi Hni. rewrite !Hth by lia. by rewrite boundaries_before_S.
Qed.

(** X6: with initial_expected_ticks in the range of [np.int64], where
    its conversion to float64 in the product of source line 59 succeeds:
    when the running sums of the features never reach the seed threshold
    initial_expected_ticks * initial_bar_size in absolute value, the call
    returns without calling the smoothing primitive: no boundary and no
    time delta, the running sums as Statistic, their absolute values as
    AbsStatistic, the seed threshold at every index but 0, and 0 as every
    group identifier. *)
Theorem no_boundary_outputs (x0 : F) (rest : list F)
    (initial_expected_ticks : Z) (initial_bar_size : F) :
  - 2 ^ 63 ≤ initial_expected_ticks < 2 ^ 63 →
  Forall (λ s, f_ge (f_abs s)
                 (f_mul (f_of_int initial_expected_ticks) initial_bar_size)
               = false) (sums_from x0 rest) →
  compute_thresholds smooth (x0 :: rest) initial_expected_ticks
    initial_bar_size
  = Ok ([], f_abs <$> x0 :: sums_from x0 rest,
        f_zero :: replicate (length rest)
                    (f_mul (f_of_int initial_expected_ticks) initial_bar_size),
        [], x0 :: sums_from x0 rest,
        replicate (S (length rest)) (f_of_int 0)).
Proof.
  intros _ Hquiet. unfold compute_thresholds, scan.
  rewrite init_cons. cbn [bind].
  replace (length (x0 :: rest) - 1)%nat with (length rest) by (simpl; lia).
  rewrite (quiet_loop smooth (x0 :: rest) initial_expected_ticks
             initial_bar_size rest [x0]); done.
Qed.

(** *** Scanning a prefix of the series *)

Lemma rmap_bind {A B C : Type} (f : B → C) (c : result A) (k : A → result B) :
  rmap f (bind c k) = bind c (λ a, rmap f (k a)).
Proof. by destruct c. Qed.

Lemma setitem_take {A : Type} (m i : nat) (a : list A) (v : A) :
  (i < m)%nat → (m ≤ length a)%nat →
  setitem (take m a) i v = rmap (take m) (setitem a i v).
Proof.
  intros Hi Hm. rewrite !setitem_lt by (rewrite ?length_take; lia).
  simpl. by rewrite take_insert_lt.
Qed.

Lemma roomy_step (target_column : list F) (initial_expected_ticks : Z)
    (m i : nat) (st st' : state F) :
  roomy m st →
  step smooth target_column initial_expected_ticks st i = Ok st' →
  roomy m st'.
Proof.
  intros (? & ? & ? & ?) Hstep%step_inv.
  destruct Hstep; unfold roomy; simpl; rewrite !length_insert; done.
Qed.

(** One pass on the first [m] features is the pass on all of them, on
    buffers cut to [m] entries. *)
Lemma step_truncate (target_column : list F) (initial_expected_ticks : Z)
    (m i : nat) (st : state F) :
  (i < m)%nat → roomy m st →
  step smooth (take m target_column) initial_expected_ticks (truncate m st) i
  = rmap (truncate m)
      (step smooth target_column initial_expected_ticks st i).
Proof.
  intros Hi (Ha & Ht & Hs & Hg). unfold step, getitem.
  rewrite lookup_take_lt by done.
  destruct (target_column !! i) as [x|]; [|done]. cbn [bind].
  unfold truncate at 1 2 3 4 5 6 7 8. simpl_state.
  rewrite !setitem_take, !setitem_lt by lia. cbn [bind rmap].
  rewrite take_take, Nat.min_l by lia.
  destruct (f_ge _ _); [|done].
  destruct (np_int64 _); [|done]. cbn [bind].
  destruct (exponential_weighted_moving_average smooth _ _); [|done].
  cbn [bind]. destruct (getlast _); [|done]. cbn [bind].
  destruct (np_int64 _); [|done]. cbn [bind].
  destruct (exponential_weighted_moving_average smooth _ _); [|done].
  cbn [bind]. by destruct (getlast _).
Qed.

Lemma for_range_truncate (target_column : list F)
    (initial_expected_ticks : Z) (m len : nat) :
  ∀ lo st, (lo + len ≤ m)%nat → roomy m st →
  for_range (step smooth (take m target_column) initial_expected_ticks)
    (seq lo len) (truncate m st)
  = rmap (truncate m)
      (for_range (step smooth target_column initial_expected_ticks)
         (seq lo len) st).
Proof.
  induction len as [|len IH]; intros lo st Hlen Hroom; [done|].
  cbn [seq for_range]. rewrite step_truncate by (done || lia).
  destruct (step smooth target_column _ st lo) as [st'|] eqn:Hstep; [|done].
  cbn [rmap bind]. apply IH; [lia|]. by eapply roomy_step.
Qed.

Lemma init_truncate (target_column : list F) (initial_expected_ticks : Z)
    (initial_bar_size : F) (m : nat) :
  (1 ≤ m ≤ length target_column)%nat →
  init (take m target_column) initial_expected_ticks initial_bar_size
  = rmap (truncate m)
      (init target_column initial_expected_ticks initial_bar_size).
Proof.
  intros Hm. unfold init, getitem.
  rewrite lookup_take_lt, length_take_le by lia.
  destruct (target_column !! 0%nat) as [x0|]; [|done]. cbn [bind].
  rewrite !setitem_lt by (rewrite length_replicate; lia). cbn [bind rmap].
  unfold truncate. simpl_state.
  by rewrite !take_insert_lt, !take_replicate, !Nat.min_l by lia.
Qed.

Lemma state_after_truncate (target_column : list F)
    (initial_expected_ticks : Z) (initial_bar_size : F) (m : nat) :
  (1 ≤ m ≤ length target_column)%nat →
  state_after smooth (take m target_column) initial_expected_ticks
    initial_bar_size (m - 1)
  = rmap (truncate m)
      (state_after smooth target_column initial_expected_ticks
         initial_bar_size (m - 1)).
Proof.
  intros Hm. unfold state_after. rewrite init_truncate by done.
  destruct (init target_column _ _) as [st0|] eqn:Hinit; [|done].
  cbn [rmap bind]. apply for_range_truncate; [lia|].
  apply shape_init in Hinit as [_ []]. unfold roomy. lia.
Qed.

(** The passes from index [m] on extend the state they start from. *)
Lemma for_range_extends (target_column : list F)
    (initial_expected_ticks : Z) (m len : nat) (st0 st : state F) :
  for_range (step smooth target_column initial_expected_ticks)
    (seq m len) st0 = Ok st →
  extends m st0 st.
Proof.
  intros Hrun.
  enough ((m ≤ m + len)%nat → extends m st0 st) as Hgoal by (apply Hgoal; lia).
  revert Hrun.
  apply (for_range_seq_ind _ (λ i s, (m ≤ i)%nat → extends m st0 s)).
  - intros _. do 4 (split; [done|]). exists [], [].
    by rewrite !app_nil_r.
  - intros i s s' Hi Hs Hstep%step_inv _.
    destruct Hs as (Ha & Ht & Hth & Hg & nt & nd & Hnt & Hnd & Hge); [lia|].
    destruct Hstep; unfold extends; simpl_state;
      rewrite !take_insert_ge by lia; do 4 (split; [done|]).
    + by exists nt, nd.
    + exists (nt ++ [i]), (nd ++
        [f_of_int (Z.of_nat i - Z.of_nat (previous_time s))]).
      rewrite Hnt, Hnd, <- !app_assoc. split; [done|]. split; [done|].
      apply Forall_app. split; [done|]. repeat constructor. lia.
Qed.

Lemma state_after_split (target_column : list F)
    (initial_expected_ticks : Z) (initial_bar_size : F) (k len : nat) :
  state_after smooth target_column initial_expected_ticks initial_bar_size
    (k + len)
  = let* st := state_after smooth target_column initial_expected_ticks
                 initial_bar_size k in
    for_range (step smooth target_column initial_expected_ticks)
      (seq (S k) len) st.
Proof.
  unfold state_after.
  destruct (init target_column _ _) as [st0|]; [|done]. cbn [bind].
  by rewrite seq_app, for_range_app.
Qed.

(** X7: the scan is causal.  When the call returns on a series, it
    returns on every non-empty prefix of it, with the first [m] entries
    of the four buffers, the boundaries declared before index [m], and
    their time deltas. *)
Theorem prefix_outputs (target_column : list F)
    (initial_expected_ticks : Z) (initial_bar_size : F) (m : nat)
    (time_deltas absolute_thetas thresholds thetas grouping_ids : list F)
    (times : list nat) :
  compute_thresholds smooth target_column initial_expected_ticks
    initial_bar_size
    = Ok (time_deltas, absolute_thetas, thresholds, times, thetas, grouping_ids) →
  (1 ≤ m ≤ length target_column)%nat →
  compute_thresholds smooth (take m target_column) initial_expected_ticks
    initial_bar_size
  = Ok (take (length (boundaries_before m times)) time_deltas,
        take m absolute_thetas, take m thresholds,
        boundaries_before m times, take m thetas, take m grouping_ids).
Proof.
  rewrite !compute_thresholds_state_after. intros Hrun Hm.
  apply bind_Ok in Hrun as (st & Hst & [= <- <- <- <- <- <-]).
  replace (length target_column - 1)%nat
    with ((m - 1) + (length target_column - m))%nat in Hst by lia.
  rewrite state_after_split in Hst.
  apply bind_Ok in Hst as (stm & Hstm & Hrest).
  replace (S (m - 1)) with m in Hrest by lia.
  pose proof (state_after_invariants _ _ _ _ _ _ Hstm) as (_ & Hsh & _).
  replace (S (m - 1)) with m in Hsh by lia.
  apply for_range_extends in Hrest
    as (Ha & Ht & Hth & Hg & nt & nd & Hnt & Hnd & Hge).
  rewrite length_take_le, state_after_truncate, Hstm by lia.
  cbn [rmap bind]. unfold returned, truncate. simpl_state.
  assert (boundaries_before m (times st) = times stm) as Hbefore.
  { rewrite Hnt. unfold boundaries_before. rewrite filter_app.
    fold (boundaries_before m (times stm)). fold (boundaries_before m nt).
    rewrite boundaries_before_all by apply (shape_bound _ _ _ Hsh).
    rewrite boundaries_before_none by done. apply app_nil_r. }
  rewrite Hbefore, Ha, Ht, Hth, Hg, Hnd.
  rewrite <- (shape_length_time_deltas _ _ _ Hsh).
  by rewrite take_app_length.
Qed.

(** X8: a failure is final.  When the call fails on a non-empty prefix
    of a series, it fails on the series with the same exception. *)
Theorem prefix_failure (target_column : list F)
    (initial_expected_ticks : Z) (initial_bar_size : F) (m : nat) (e : exn) :
  compute_thresholds smooth (take m target_column) initial_expected_ticks
    initial_bar_size = Err e →
  (1 ≤ m ≤ length target_column)%nat →
  compute_thresholds smooth target_column initial_expected_ticks
    initial_bar_size = Err e.
Proof.
  rewrite !compute_thresholds_state_after. intros Hrun Hm.
  rewrite length_take_le, state_after_truncate in Hrun by lia.
  destruct (state_after smooth target_column _ _ (m - 1)) as [stm|e']
    eqn:Hstm; [done|].
  injection Hrun as ->.
  replace (length target_column - 1)%nat
    with ((m - 1) + (length target_column - m))%nat by lia.
  by rewrite (state_after_Err _ _ _ _ _ _ e).
Qed.

(** X9: with a smoothing primitive that returns no empty sequence on a
    non-empty window, the call fails with IndexError exactly on the empty
    series. *)
Theorem index_error_iff_empty (target_column : list F)
    (initial_expected_ticks : Z) (initial_bar_size : F) :
  (∀ xs span, xs ≠ [] → smooth xs span ≠ Some []) →
  compute_thresholds smooth target_column initial_expected_ticks
    initial_bar_size = Err IndexError
  ↔ target_column = [].
Proof.
  intros Hsmooth. split; [|by intros ->].
  intros [[-> _]|(i & st & Hi & Hsh & Hraise)]%compute_thresholds_Err; [done|].
  exfalso. inversion Hraise as [| |Hs| | |Hs].
  - revert Hs. apply Hsmooth. by destruct (time_deltas st).
  - revert Hs. apply Hsmooth. intros Htake.
    apply (f_equal length) in Htake. rewrite length_take_le in Htake by lia.
    simpl in Htake. lia.
Qed.

(** X10: the call fails with OverflowError only when
    initial_expected_ticks or the length of the series is outside the
    range of [np.int64]. *)
Theorem overflow_error_cause (target_column : list F)
    (initial_expected_ticks : Z) (initial_bar_size : F) :
  compute_thresholds smooth target_column initial_expected_ticks
    initial_bar_size = Err OverflowError →
  ¬ (- 2 ^ 63 ≤ initial_expected_ticks < 2 ^ 63) ∨
  2 ^ 63 ≤ Z.of_nat (length target_column).
Proof.
  intros [[_ [=]]|(i & st & Hi & Hsh & Hraise)]%compute_thresholds_Err.
  inversion Hraise as [Hspan| | |Hw| |]; [|by left]. right.
  pose proof (shape_length_time_deltas _ _ _ Hsh) as Hl.
  pose proof (increasing_from_length _ _ (shape_increasing _ _ _ Hsh)).
  pose proof (last_bound i 0 _ (shape_bound _ _ _ Hsh)). lia.
Qed.

(** X11: the call fails with NumericError only when a smoothing call
    fails, and every smoothing call is made on a non-empty window: the
    [i] features before a boundary index [i >= 1] with span
    initial_expected_ticks, or a list of time deltas with its length as
    span. *)
Theorem numeric_error_cause (target_column : list F)
    (initial_expected_ticks : Z) (initial_bar_size : F) :
  compute_thresholds smooth target_column initial_expected_ticks
    initial_bar_size = Err NumericError →
  (∃ i, (1 ≤ i < length target_column)%nat ∧
     smooth (take i target_column) initial_expected_ticks = None) ∨
  (∃ tds, tds ≠ [] ∧ (length tds < length target_column)%nat ∧
     smooth tds (Z.of_nat (length tds)) = None).
Proof.
  intros [[_ [=]]|(i & st & Hi & Hsh & Hraise)]%compute_thresholds_Err.
  inversion Hraise as [|Hs| | |Hs|].
  - right.
    exists (time_deltas st ++
              [f_of_int (Z.of_nat i - Z.of_nat (previous_time st))]).
    assert (length (time_deltas st ++
              [f_of_int (Z.of_nat i - Z.of_nat (previous_time st))])
            = S (length (time_deltas st))) as Hlen
      by (rewrite length_app; simpl; lia).
    rewrite Hlen. split; [by destruct (time_deltas st)|]. split; [|done].
    rewrite (shape_length_time_deltas _ _ _ Hsh).
    pose proof (increasing_from_length _ _ (shape_increasing _ _ _ Hsh)).
    pose proof (last_bound i 0 _ (shape_bound _ _ _ Hsh)). lia.
  - left. by exists i.
Qed.

(** X12: a value that absorbs the running sum ends the segmentation.
    When some scalar [bad] stays [bad] under addition from either side
    and its absolute value reaches no threshold (as the float64 NaN does),
    and the call returns on a series that holds [bad] at index [j], then
    every boundary lies before [j] and Statistic is [bad] from [j] on. *)
Theorem absorbing_value_stops_boundaries (bad : F) (j : nat)
    (target_column : list F) (initial_expected_ticks : Z)
    (initial_bar_size : F)
    (time_deltas absolute_thetas thresholds thetas grouping_ids : list F)
    (times : list nat) :
  (∀ x, f_add bad x = bad) → (∀ x, f_add x bad = bad) →
  (∀ t, f_ge (f_abs bad) t = false) →
  target_column !! j = Some bad →
  compute_thresholds smooth target_column initial_expected_ticks
    initial_bar_size
    = Ok (time_deltas, absolute_thetas, thresholds, times, thetas, grouping_ids) →
  (∀ i, i ∈ times → (i < j)%nat) ∧
  (∀ i, (j ≤ i < length target_column)%nat → thetas !! i = Some bad).
Proof.
  intros Hl Hr Hge Hj. rewrite compute_thresholds_state_after.
  intros (st & Hst & [= <- <- <- <- <- <-])%bind_Ok.
  pose proof (lookup_lt_Some _ _ _ Hj) as Hlt.
  pose proof (state_after_absorbed _ _ _ _ bad j _ st Hl Hr Hge Hj Hst)
    as [Htimes Hbad].
  replace (S (length target_column - 1)) with (length target_column)
    in Hbad by lia.
  split; [by apply Forall_forall|].
  destruct Hbad as [_ Hpast]; [lia|done].
Qed.

(** X13: the first bar closes at the first index where the absolute
    running sum of the features reaches the seed threshold
    initial_expected_ticks * initial_bar_size.  Up to the first boundary
    index [t], Statistic is the running sum of the features; the test
    fails on it at every index in 1 .. [t - 1] and holds at [t]. *)
Theorem first_boundary_from_seeds (x0 : F) (rest : list F)
    (initial_expected_ticks : Z) (initial_bar_size : F) (t : nat)
    (time_deltas absolute_thetas thresholds thetas grouping_ids : list F)
    (times : list nat) :
  compute_thresholds smooth (x0 :: rest) initial_expected_ticks
    initial_bar_size
    = Ok (time_deltas, absolute_thetas, thresholds, times, thetas, grouping_ids) →
  times !! 0%nat = Some t →
  take (S t) thetas = take (S t) (x0 :: sums_from x0 rest) ∧
  (∀ i s, (1 ≤ i ≤ t)%nat → (x0 :: sums_from x0 rest) !! i = Some s →
     f_ge (f_abs s)
       (f_mul (f_of_int initial_expected_ticks) initial_bar_size)
     = bool_decide (i = t)).
Proof.
  rewrite compute_thresholds_state_after.
  intros (st & Hst & [= <- <- <- <- <- <-])%bind_Ok Ht.
  pose proof (state_after_invariants _ _ _ _ _ _ Hst)
    as (Hn & Hsh & Hex & _ & Hes & _).
  pose proof (state_after_statistics _ _ _ _ _ _ Hst) as [Hm Hacc].
  replace (S (length (x0 :: rest) - 1)) with (length (x0 :: rest))
    in * by (simpl; lia).
  pose proof (shape_increasing _ _ _ Hsh) as Hinc.
  pose proof (shape_bound _ _ _ Hsh) as Hb.
  assert (t < length (x0 :: rest))%nat as Htn.
  { rewrite Forall_forall in Hb. apply Hb. by eapply list_elem_of_lookup_2. }
  assert (∀ i, i ∈ times st → (t ≤ i)%nat) as Hfirst.
  { intros i [k Hk]%list_elem_of_lookup. destruct k as [|k].
    - rewrite Ht in Hk. injection Hk as <-. lia.
    - pose proof (increasing_from_lookup 0 _ 0 (S k) t i Hinc
                    ltac:(lia) Ht Hk). lia. }
  assert (∀ i, (i ≤ t)%nat →
            thetas st !! i = (x0 :: sums_from x0 rest) !! i) as Hsums.
  { destruct Hacc as (H0 & Hpast & _).
    induction i as [|i IH]; intros Hi; [done|].
    destruct (lookup_lt_is_Some_2 (thetas st) i) as [s Hs].
    { rewrite (shape_thetas _ _ _ Hsh). lia. }
    destruct (lookup_lt_is_Some_2 rest i) as [x Hx].
    { simpl in Htn. lia. }
    rewrite (Hpast i s x); [|lia| |done|done].
    - symmetry. apply sums_from_lookup_S; [|done]. rewrite <- IH by lia. done.
    - intros Hin%Hfirst. lia. }
  split.
  - apply list_eq. intros i. destruct (decide (i < S t)%nat).
    + rewrite !lookup_take_lt by done. apply Hsums. lia.
    + by rewrite !lookup_take_ge by lia.
  - intros i s Hi Hs. rewrite <- Hsums in Hs by lia.
    destruct Hes as (_ & _ & Hth).
    assert (thresholds st !! i
            = Some (f_mul (f_of_int initial_expected_ticks) initial_bar_size))
      as Hthr.
    { rewrite Hth by lia. rewrite boundaries_before_none; [done|].
      apply Forall_forall. intros u Hu%Hfirst. lia. }
    assert (absolute_thetas st !! i = Some (f_abs s)) as Habs.
    { rewrite Hm by lia. by rewrite Hs. }
    specialize (Hex i). unfold triggered in Hex. rewrite Habs, Hthr in Hex.
    case_bool_decide as Hit.
    + subst i. destruct Hex as [Hex _]; [lia|].
      destruct Hex as (a & u & [= <-] & [= <-] & Hge);
        [by eapply list_elem_of_lookup_2|done].
    + destruct (f_ge _ _) eqn:Hge; [|done]. exfalso.
      destruct Hex as [_ Hex]; [lia|].
      apply Hfirst in Hex; [lia|]. by exists (f_abs s), (f_mul
        (f_of_int initial_expected_ticks) initial_bar_size).
Qed.

(** X14: the boundaries delimit the bars.  Whenever the call returns,
    GroupId is 0 up to the first boundary index, [k + 1] after boundary
    [k] up to boundary [k + 1], and the number of boundaries after the
    last one. *)
Theorem grouping_ids_on_bars (target_column : list F)
    (initial_expected_ticks : Z) (initial_bar_size : F)
    (time_deltas absolute_thetas thresholds thetas grouping_ids : list F)
    (times : list nat) :
  compute_thresholds smooth target_column initial_expected_ticks
    initial_bar_size
    = Ok (time_deltas, absolute_thetas, thresholds, times, thetas, grouping_ids) →
  (∀ t j, times !! 0%nat = Some t → (j ≤ t)%nat →
     grouping_ids !! j = Some (f_of_int 0)) ∧
  (∀ k p t j, times !! k = Some p → times !! S k = Some t →
     (p < j ≤ t)%nat →
     grouping_ids !! j = Some (f_of_int (Z.of_nat (S k)))) ∧
  (∀ p j, last times = Some p → (p < j < length target_column)%nat →
     grouping_ids !! j = Some (f_of_int (Z.of_nat (length times)))).
Proof.
  intros (st & [= -> -> -> -> -> ->] & Hn & Hsh & _ & Hco & _)%compute_thresholds_invariants.
  pose proof (shape_increasing _ _ _ Hsh) as Hinc.
  pose proof (shape_bound _ _ _ Hsh) as Hb.
  assert (∀ k t, times st !! k = Some t → (t < length target_column)%nat)
    as Hlt.
  { intros k t Hk. rewrite Forall_forall in Hb. apply Hb.
    by eapply list_elem_of_lookup_2. }
  split; [|split].
  - intros t j Ht Hj.
    destruct (boundaries_before_position _ _ _ _ Hinc Ht) as [H0 _].
    pose proof (boundaries_before_mono j t (times st) Hj).
    rewrite Hco by (specialize (Hlt _ _ Ht); lia).
    by replace (length (boundaries_before j (times st))) with 0%nat by lia.
  - intros k p t j Hp Ht Hj.
    destruct (boundaries_before_position _ _ _ _ Hinc Hp) as [_ HSp].
    destruct (boundaries_before_position _ _ _ _ Hinc Ht) as [Hkt _].
    pose proof (boundaries_before_mono (S p) j (times st)).
    pose proof (boundaries_before_mono j t (times st)).
    rewrite Hco by (specialize (Hlt _ _ Ht); lia).
    by replace (length (boundaries_before j (times st))) with (S k) by lia.
  - intros p j Hp Hj. rewrite Hco by lia.
    rewrite boundaries_before_all; [done|].
    apply Forall_forall. intros u [l Hl]%list_elem_of_lookup.
    rewrite last_lookup in Hp.
    destruct (decide (l = Init.Nat.pred (length (times st)))) as [->|Hne].
    + rewrite Hp in Hl. injection Hl as <-. lia.
    + pose proof (lookup_lt_Some _ _ _ Hl).
      pose proof (increasing_from_lookup 0 _ l
                    (Init.Nat.pred (length (times st))) u p Hinc
                    ltac:(lia) Hl Hp). lia.
Qed.

End Further.

(** ** The segmenter on float64, with the reference smoothing *)

Lemma ewma_from_length alpha prev xs :
  length (ewma_from alpha prev xs) = length xs.
Proof. revert prev. induction xs; intros; simpl; auto. Qed.

Lemma ewma_length xs span out :
  ewma xs span = Some out → length out = length xs.
Proof.
  unfold ewma. destruct (forallb _ _); [|done].
  destruct xs as [|x xs]; intros [= <-]; [done|].
  simpl. by rewrite ewma_from_length.
Qed.

Lemma ewma_rejects_non_finite xs span :
  forallb f_isfinite xs = false → ewma xs span = None.
Proof. unfold ewma. simpl. by intros ->. Qed.

(** Scalar addition is exact, and the conversion keeps the order, on the
    small integers of the scenarios below. *)
Lemma binary64_add_exact (a b : Z) :
  0 ≤ a → 0 ≤ b → a + b < 6 →
  f_add (f_of_int a) (f_of_int b) = f_of_int (a + b).
Proof.
  intros Ha Hb Hab.
  assert (a = 0 ∨ a = 1 ∨ a = 2 ∨ a = 3 ∨ a = 4 ∨ a = 5) as Hcase by lia.
  assert (b = 0 ∨ b = 1 ∨ b = 2 ∨ b = 3 ∨ b = 4 ∨ b = 5) as Hcase' by lia.
  destruct Hcase as [->|[->|[->|[->|[->| ->]]]]];
    destruct Hcase' as [->|[->|[->|[->|[->| ->]]]]];
    first [ reflexivity | lia ].
Qed.

Lemma binary64_of_int_mono (a b : nat) :
  (a ≤ b ≤ 2)%nat →
  f_ge (f_of_int (Z.of_nat b)) (f_of_int (Z.of_nat a)) = true.
Proof.
  intros Hab.
  destruct a as [|[|[|a]]]; destruct b as [|[|[|b]]];
    first [ reflexivity | lia ].
Qed.

(** The scenarios of section 8 of the specification. *)
Example scenario_single :
  compute_thresholds ewma [5]%float 3 2%float
  = Ok ([], [5]%float, [0]%float, [], [5]%float, [0]%float).
Proof. vm_compute. reflexivity. Qed.

Example scenario_zeros :
  compute_thresholds ewma (replicate 10 0%float) 3 2%float
  = Ok ([], replicate 10 0%float, 0%float :: replicate 9 6%float, [],
        replicate 10 0%float, replicate 10 0%float).
Proof. vm_compute. reflexivity. Qed.

Example scenario_ones :
  compute_thresholds ewma [1; 1; 1; 1; 1; 1]%float 2 1%float
  = Ok ([1; 1; 1; 1; 1]%float, [1; 2; 1; 1; 1; 1]%float,
        [0; 2; 1; 1; 1; 1]%float, [1; 2; 3; 4; 5]%nat,
        [1; 2; 1; 1; 1; 1]%float, [0; 0; 1; 2; 3; 4]%float).
Proof. vm_compute. reflexivity. Qed.

Lemma demo_run :
  compute_thresholds ewma demo_features 3 1%float
  = Ok (demo_time_deltas, demo_absolute_thetas, demo_thresholds, demo_times,
        demo_thetas, demo_grouping_ids).
Proof. vm_compute. reflexivity. Qed.

(** C1 fails as stated: a call with initial_expected_ticks = 0 and
    initial_bar_size = -1.0 returns its six sequences, and a call on an
    empty series fails with IndexError, not with InvalidInput. *)
Lemma invalid_arguments_accepted :
  compute_thresholds ewma [5]%float 0 (-1)%float
    = Ok ([], [5]%float, [0]%float, [], [5]%float, [0]%float) ∧
  compute_thresholds ewma [] 1 1%float = Err IndexError.
Proof. split; vm_compute; reflexivity. Qed.

(** C2 fails as stated at index 0: on the one-value series [5.0],
    AbsStatistic[0] = 5.0 >= 0.0 = Threshold[0], and index 0 is not a
    boundary index. *)
Lemma trigger_holds_at_index_zero :
  compute_thresholds ewma [5]%float 3 2%float
    = Ok ([], [5]%float, [0]%float, [], [5]%float, [0]%float) ∧
  ¬ (0%nat ∈ @nil nat ↔ triggered [5]%float [0]%float 0).
Proof.
  split; [vm_compute; reflexivity|].
  intros [_ Hin]. eapply not_elem_of_nil, Hin.
  exists 5%float, 0%float. repeat split; reflexivity.
Qed.

(** C2 on the demo scenario. *)
Lemma boundary_trigger_exact_witness :
  compute_thresholds ewma demo_features 3 1%float
    = Ok (demo_time_deltas, demo_absolute_thetas, demo_thresholds, demo_times,
          demo_thetas, demo_grouping_ids) ∧
  (∀ i, i ∈ demo_times → (1 ≤ i < length demo_features)%nat) ∧
  (∀ i, (1 ≤ i < length demo_features)%nat →
     (i ∈ demo_times ↔ triggered demo_absolute_thetas demo_thresholds i)) ∧
  (∀ i a t, (1 ≤ i < length demo_features)%nat → i ∉ demo_times →
     demo_absolute_thetas !! i = Some a → demo_thresholds !! i = Some t →
     f_ge a t = false).
Proof.
  split; [vm_compute; reflexivity|].
  apply (boundary_trigger_exact ewma demo_features 3 1%float
           demo_time_deltas demo_absolute_thetas demo_thresholds
           demo_thetas demo_grouping_ids demo_times).
  vm_compute; reflexivity.
Defined.

(** C3 fails as stated when the last index is a boundary: on [1.0, 1.0]
    with seeds 1 and 1.0 one boundary is declared, at index 1, and the
    final GroupId is 0. *)
Lemma final_group_id_lags_boundary :
  compute_thresholds ewma [1; 1]%float 1 1%float
    = Ok ([1]%float, [1; 2]%float, [0; 1]%float, [1%nat], [1; 2]%float,
          [0; 0]%float) ∧
  last [0; 0]%float ≠ Some (f_of_int (Z.of_nat (length [1]%float))).
Proof.
  split; [vm_compute; reflexivity|].
  intros Heq.
  apply (f_equal (λ o, if o is Some v then PrimFloat.eqb v 0 else false)) in Heq.
  vm_compute in Heq. discriminate.
Qed.

(** C3 on the demo scenario. *)
Lemma grouping_ids_monotone_witness :
  compute_thresholds ewma demo_features 3 1%float
    = Ok (demo_time_deltas, demo_absolute_thetas, demo_thresholds, demo_times,
          demo_thetas, demo_grouping_ids) ∧
  last demo_grouping_ids
    = Some (f_of_int (Z.of_nat
        (length (boundaries_before (length demo_features - 1) demo_times)))) ∧
  (∀ i j x y, (i ≤ j)%nat →
     demo_grouping_ids !! i = Some x → demo_grouping_ids !! j = Some y →
     f_ge y x = true).
Proof.
  split; [vm_compute; reflexivity|].
  destruct (grouping_ids_monotone ewma demo_features 3 1%float
              demo_time_deltas demo_absolute_thetas demo_thresholds
              demo_thetas demo_grouping_ids demo_times)
    as (_ & _ & Hlast & _ & Hmono); [vm_compute; reflexivity|].
  split; [exact Hlast|]. apply Hmono. exact binary64_of_int_mono.
Defined.

(** C4 on the demo scenario. *)
Lemma threshold_is_estimate_product_witness :
  compute_thresholds ewma demo_features 3 1%float
    = Ok (demo_time_deltas, demo_absolute_thetas, demo_thresholds, demo_times,
          demo_thetas, demo_grouping_ids) ∧
  demo_thresholds !! 0%nat = Some f_zero ∧
  (∀ i, (1 ≤ i < length demo_features)%nat →
     demo_thresholds !! i
     = threshold_of <$>
         estimates ewma demo_features 3 1%float demo_time_deltas
           (boundaries_before i demo_times)) ∧
  (∀ i, (1 ≤ i < length demo_features)%nat →
     boundaries_before i demo_times = [] →
     demo_thresholds !! i = Some (f_mul (f_of_int 3) 1%float)).
Proof.
  split; [vm_compute; reflexivity|].
  apply (threshold_is_estimate_product ewma demo_features 3 1%float
           demo_time_deltas demo_absolute_thetas demo_thresholds
           demo_thetas demo_grouping_ids demo_times).
  vm_compute; reflexivity.
Defined.

(** C5 fails as stated: at the boundary at index 1 of [1.0, 3.0, 1.0]
    the expected-bar-magnitude estimate becomes 1.0, smoothed from
    features[:1], and not the 3.0 that the prefix through index 1
    gives. *)
Lemma bar_window_excludes_current :
  state_after ewma [1; 3; 1]%float 1 1%float 1 = Ok after_first_boundary ∧
  last (times after_first_boundary) = Some 1%nat ∧
  Some (expected_bar_value after_first_boundary)
    ≠ f_abs <$> smoothed_last ewma (take (S 1) [1; 3; 1]%float) 1.
Proof.
  split; [vm_compute; reflexivity|]. split; [reflexivity|].
  intros Heq.
  apply (f_equal (λ o, if o is Some v then PrimFloat.eqb v 1 else false)) in Heq.
  vm_compute in Heq. discriminate.
Qed.

(** C5 at that boundary. *)
Lemma estimates_at_boundary_witness :
  state_after ewma [1; 3; 1]%float 1 1%float 1 = Ok after_first_boundary ∧
  last (times after_first_boundary) = Some 1%nat ∧
  Some (expected_ticks after_first_boundary)
    = smoothed_last ewma (time_deltas after_first_boundary)
        (Z.of_nat (length (times after_first_boundary))) ∧
  Some (expected_bar_value after_first_boundary)
    = f_abs <$> smoothed_last ewma (take 1 [1; 3; 1]%float) 1 ∧
  length (time_deltas after_first_boundary)
    = length (times after_first_boundary) ∧
  length (take 1 [1; 3; 1]%float) = 1%nat.
Proof.
  split; [vm_compute; reflexivity|]. split; [reflexivity|].
  apply (estimates_at_boundary ewma [1; 3; 1]%float 1 1%float 1
           after_first_boundary);
    [vm_compute; reflexivity|reflexivity].
Defined.

(** Adding a float64 to the 0.0 that the integer 0 converts to returns
    it, except for the negative zero, whose sum with 0.0 is 0.0. *)
Lemma binary64_zero_add (x : float) :
  x ≠ neg_zero → f_add (f_of_int 0) x = x.
Proof.
  intros Hx. apply Prim2SF_inj. simpl. rewrite add_spec.
  change (Prim2SF (float_of_Z 0)) with (S754_zero false).
  destruct (Prim2SF x) as [[|]| | |] eqn:Hp; try reflexivity.
  exfalso. apply Hx. by rewrite <- (SF2Prim_Prim2SF x), Hp.
Qed.

Lemma binary64_zero_add_neg_zero : f_add (f_of_int 0) neg_zero = 0%float.
Proof. reflexivity. Qed.

(** C6 fails as stated at a negative zero: on [1.0, 1.0, -0.0] with
    seeds 1 and 1.0 a boundary is declared at index 1, features[2] is
    -0.0 and Statistic[2] is +0.0. *)
Lemma negative_zero_not_restored :
  compute_thresholds ewma [1; 1; neg_zero]%float 1 1%float
    = Ok ([1]%float, [1; 2; 0]%float, [0; 1; 1]%float, [1%nat],
          [1; 2; 0]%float, [0; 0; 1]%float) ∧
  1%nat ∈ [1%nat] ∧
  [1; 2; 0]%float !! 2%nat ≠ [1; 1; neg_zero]%float !! 2%nat.
Proof.
  split; [vm_compute; reflexivity|]. split; [left|].
  intros Heq.
  apply (f_equal (λ o, if o is Some v then PrimFloat.ltb (1 / v) 0
                       else false)) in Heq.
  vm_compute in Heq. discriminate.
Qed.

(** C6, as amended: on float64, whenever the call returns, for every
    boundary index [i] with [i + 1] an index of the series the running
    sum restarts from the integer 0, so Statistic[i+1] is
    0.0 + features[i+1] and nothing of the bar that ended at [i] is
    carried forward: Statistic[i+1] is features[i+1] itself unless that
    feature is the negative zero, and is +0.0 when it is. *)
Theorem statistic_restarts_from_zero
    (smooth : list float → Z → option (list float))
    (target_column : list float) (initial_expected_ticks : Z)
    (initial_bar_size : float)
    (time_deltas absolute_thetas thresholds thetas grouping_ids : list float)
    (times : list nat) (i : nat) (x : float) :
  compute_thresholds smooth target_column initial_expected_ticks
    initial_bar_size
    = Ok (time_deltas, absolute_thetas, thresholds, times, thetas, grouping_ids) →
  i ∈ times →
  target_column !! S i = Some x →
  thetas !! S i = Some (0 + x)%float ∧
  (x ≠ neg_zero → thetas !! S i = Some x) ∧
  (x = neg_zero → thetas !! S i = Some 0%float).
Proof.
  intros Hrun Hi Hx.
  pose proof (statistic_after_boundary smooth target_column
                initial_expected_ticks initial_bar_size _ _ _ _ _ _ i x
                Hrun Hi Hx) as Hth.
  split; [exact Hth|]. split.
  - intros Hne. by rewrite Hth, binary64_zero_add.
  - intros ->. by rewrite Hth, binary64_zero_add_neg_zero.
Qed.

(** C6 on the demo scenario, after the boundary at index 2. *)
Lemma statistic_restarts_from_zero_witness :
  compute_thresholds ewma demo_features 3 1%float
    = Ok (demo_time_deltas, demo_absolute_thetas, demo_thresholds, demo_times,
          demo_thetas, demo_grouping_ids) ∧
  2%nat ∈ demo_times ∧
  demo_features !! 3%nat = Some 1%float ∧
  demo_thetas !! 3%nat = Some (0 + 1)%float ∧
  (1%float ≠ neg_zero → demo_thetas !! 3%nat = Some 1%float) ∧
  (1%float = neg_zero → demo_thetas !! 3%nat = Some 0%float).
Proof.
  split; [vm_compute; reflexivity|]. split; [left|].
  split; [reflexivity|].
  apply (statistic_restarts_from_zero ewma demo_features 3 1%float
           demo_time_deltas demo_absolute_thetas demo_thresholds
           demo_thetas demo_grouping_ids demo_times 2 1%float);
    [vm_compute; reflexivity|left|reflexivity].
Defined.

(** C7 on the demo scenario. *)
Lemma time_deltas_are_differences_witness :
  compute_thresholds ewma demo_features 3 1%float
    = Ok (demo_time_deltas, demo_absolute_thetas, demo_thresholds, demo_times,
          demo_thetas, demo_grouping_ids) ∧
  demo_time_deltas = f_of_int <$> deltas 0 demo_times ∧
  sum_Z (deltas 0 demo_times) = 4 ∧
  sum_scalars demo_time_deltas = f_of_int 4.
Proof.
  split; [vm_compute; reflexivity|].
  destruct (time_deltas_are_differences ewma demo_features 3 1%float
              demo_time_deltas demo_absolute_thetas demo_thresholds
              demo_thetas demo_grouping_ids demo_times)
    as (Hmap & _ & _ & Hsum & Hexact); [vm_compute; reflexivity|].
  split; [exact Hmap|]. split; [exact (Hsum 4%nat eq_refl)|].
  exact (Hexact binary64_add_exact 4%nat eq_refl).
Defined.

(** C8 on the demo scenario. *)
Lemma output_lengths_witness :
  compute_thresholds ewma demo_features 3 1%float
    = Ok (demo_time_deltas, demo_absolute_thetas, demo_thresholds, demo_times,
          demo_thetas, demo_grouping_ids) ∧
  length demo_absolute_thetas = length demo_features ∧
  length demo_thresholds = length demo_features ∧
  length demo_thetas = length demo_features ∧
  length demo_grouping_ids = length demo_features ∧
  length demo_time_deltas = length demo_times.
Proof.
  split; [vm_compute; reflexivity|].
  apply (output_lengths ewma demo_features 3 1%float
           demo_time_deltas demo_absolute_thetas demo_thresholds
           demo_thetas demo_grouping_ids demo_times).
  vm_compute; reflexivity.
Defined.

(** C9 on [1.0, inf, 5.0]: the boundary at index 2 smooths
    features[:2], which holds the infinite value. *)
Lemma non_finite_window_fails_witness :
  state_after ewma [1; infinity; 5]%float 1 1%float (2 - 1)
    = Ok after_infinite_value ∧
  forallb f_isfinite (take 2 [1; infinity; 5]%float) = false ∧
  compute_thresholds ewma [1; infinity; 5]%float 1 1%float
    = Err NumericError.
Proof.
  split; [vm_compute; reflexivity|]. split; [vm_compute; reflexivity|].
  apply (non_finite_window_fails ewma [1; infinity; 5]%float 1 1%float 2
           after_infinite_value 5%float).
  - exact ewma_rejects_non_finite.
  - exact ewma_length.
  - lia.
  - vm_compute; reflexivity.
  - lia.
  - vm_compute; reflexivity.
  - reflexivity.
  - vm_compute; reflexivity.
  - vm_compute; reflexivity.
Defined.

(** C10 on the demo scenario. *)
Lemma grouping_id_at_boundary_witness :
  compute_thresholds ewma demo_features 3 1%float
    = Ok (demo_time_deltas, demo_absolute_thetas, demo_thresholds, demo_times,
          demo_thetas, demo_grouping_ids) ∧
  (∀ k i, demo_times !! k = Some i →
     demo_grouping_ids !! i = Some (f_of_int (Z.of_nat k)) ∧
     (∀ j, (j ≤ i)%nat → ∃ c, (c ≤ k)%nat ∧
        demo_grouping_ids !! j = Some (f_of_int (Z.of_nat c))) ∧
     ((S i < length demo_features)%nat →
        demo_grouping_ids !! S i = Some (f_of_int (Z.of_nat (S k))))) ∧
  0%nat ∉ demo_times.
Proof.
  split; [vm_compute; reflexivity|].
  apply (grouping_id_at_boundary ewma demo_features 3 1%float
           demo_time_deltas demo_absolute_thetas demo_thresholds
           demo_thetas demo_grouping_ids demo_times).
  vm_compute; reflexivity.
Defined.

(** ** Further properties on float64 *)

Lemma ewma_nonempty xs span : xs ≠ [] → ewma xs span ≠ Some [].
Proof.
  intros Hne. unfold ewma. destruct (forallb _ _); [|done].
  by destruct xs.
Qed.

Lemma ewma_returns xs span :
  xs ≠ [] → forallb f_isfinite xs = true →
  ∃ out, ewma xs span = Some out ∧ out ≠ [].
Proof.
  intros Hne Hfin. unfold ewma. simpl in Hfin. rewrite Hfin.
  destruct xs as [|x xs]; [done|]. eauto.
Qed.

Lemma binary64_small_finite (d : Z) :
  0 < d < 6 → f_isfinite (f_of_int d) = true.
Proof.
  intros Hd.
  assert (d = 1 ∨ d = 2 ∨ d = 3 ∨ d = 4 ∨ d = 5) as Hcase by lia.
  destruct Hcase as [->|[->|[->|[->| ->]]]]; reflexivity.
Qed.

(** The float64 NaN absorbs additions and reaches no threshold. *)
Lemma binary64_nan_add_l (x : float) : f_add nan x = nan.
Proof. apply Prim2SF_inj. simpl. by rewrite add_spec. Qed.

Lemma binary64_nan_add_r (x : float) : f_add x nan = nan.
Proof.
  apply Prim2SF_inj. simpl. rewrite add_spec.
  change (Prim2SF nan) with S754_nan. by destruct (Prim2SF x).
Qed.

Lemma binary64_nan_ge (t : float) : f_ge (f_abs nan) t = false.
Proof.
  simpl. change (abs nan) with nan. rewrite leb_spec.
  change (Prim2SF nan) with S754_nan. unfold SFleb, SFcompare.
  by destruct (Prim2SF t) as [?|?| |? ? ?].
Qed.

(** X1 on the demo scenario. *)
Lemma absolute_thetas_mirror_witness :
  compute_thresholds ewma demo_features 3 1%float
    = Ok (demo_time_deltas, demo_absolute_thetas, demo_thresholds, demo_times,
          demo_thetas, demo_grouping_ids) ∧
  ∀ i, (i < length demo_features)%nat →
    ∃ s, demo_thetas !! i = Some s ∧
         demo_absolute_thetas !! i = Some (f_abs s).
Proof.
  split; [vm_compute; reflexivity|].
  apply (absolute_thetas_mirror ewma demo_features 3 1%float
           demo_time_deltas demo_absolute_thetas demo_thresholds
           demo_thetas demo_grouping_ids demo_times).
  vm_compute; reflexivity.
Defined.

(** X2 on the demo scenario. *)
Lemma statistic_accumulates_witness :
  compute_thresholds ewma demo_features 3 1%float
    = Ok (demo_time_deltas, demo_absolute_thetas, demo_thresholds, demo_times,
          demo_thetas, demo_grouping_ids) ∧
  demo_thetas !! 0%nat = demo_features !! 0%nat ∧
  ∀ i s x, i ∉ demo_times → demo_thetas !! i = Some s →
    demo_features !! S i = Some x → demo_thetas !! S i = Some (f_add s x).
Proof.
  split; [vm_compute; reflexivity|].
  apply (statistic_accumulates ewma demo_features 3 1%float
           demo_time_deltas demo_absolute_thetas demo_thresholds
           demo_thetas demo_grouping_ids demo_times).
  vm_compute; reflexivity.
Defined.

(** X3 on the demo scenario. *)
Lemma boundaries_increase_witness :
  compute_thresholds ewma demo_features 3 1%float
    = Ok (demo_time_deltas, demo_absolute_thetas, demo_thresholds, demo_times,
          demo_thetas, demo_grouping_ids) ∧
  (∀ k l a b, (k < l)%nat → demo_times !! k = Some a →
     demo_times !! l = Some b → (a < b)%nat) ∧
  (length demo_times < length demo_features)%nat ∧
  (∀ k v, demo_time_deltas !! k = Some v →
     ∃ d, 1 ≤ d < Z.of_nat (length demo_features) ∧ v = f_of_int d).
Proof.
  split; [vm_compute; reflexivity|].
  apply (boundaries_increase ewma demo_features 3 1%float
           demo_time_deltas demo_absolute_thetas demo_thresholds
           demo_thetas demo_grouping_ids demo_times).
  vm_compute; reflexivity.
Defined.

(** X4 on the demo scenario. *)
Lemma grouping_id_between_boundaries_witness :
  compute_thresholds ewma demo_features 3 1%float
    = Ok (demo_time_deltas, demo_absolute_thetas, demo_thresholds, demo_times,
          demo_thetas, demo_grouping_ids) ∧
  ∀ i, (S i < length demo_features)%nat → i ∉ demo_times →
    demo_grouping_ids !! S i = demo_grouping_ids !! i.
Proof.
  split; [vm_compute; reflexivity|].
  apply (grouping_id_between_boundaries ewma demo_features 3 1%float
           demo_time_deltas demo_absolute_thetas demo_thresholds
           demo_thetas demo_grouping_ids demo_times).
  vm_compute; reflexivity.
Defined.

(** X5 on the demo scenario. *)
Lemma threshold_between_boundaries_witness :
  compute_thresholds ewma demo_features 3 1%float
    = Ok (demo_time_deltas, demo_absolute_thetas, demo_thresholds, demo_times,
          demo_thetas, demo_grouping_ids) ∧
  ∀ i, (1 ≤ i)%nat → (S i < length demo_features)%nat → i ∉ demo_times →
    demo_thresholds !! S i = demo_thresholds !! i.
Proof.
  split; [vm_compute; reflexivity|].
  apply (threshold_between_boundaries ewma demo_features 3 1%float
           demo_time_deltas demo_absolute_thetas demo_thresholds
           demo_thetas demo_grouping_ids demo_times).
  vm_compute; reflexivity.
Defined.

(** X6 on the calm scenario, with seeds 3 and 2.0. *)
Lemma no_boundary_outputs_witness :
  - 2 ^ 63 ≤ 3 < 2 ^ 63 ∧
  Forall (λ s, f_ge (f_abs s) (f_mul (f_of_int 3) 2%float) = false)
    (sums_from 1%float [1; -1; 0.5]%float) ∧
  compute_thresholds ewma calm_features 3 2%float
  = Ok ([], [1; 2; 1; 1.5]%float, [0; 6; 6; 6]%float, [],
        [1; 2; 1; 1.5]%float, [0; 0; 0; 0]%float).
Proof.
  assert (Forall (λ s, f_ge (f_abs s) (f_mul (f_of_int 3) 2%float) = false)
            (sums_from 1%float [1; -1; 0.5]%float)) as Hquiet
    by (repeat constructor).
  split; [lia|]. split; [exact Hquiet|].
  exact (no_boundary_outputs ewma 1%float [1; -1; 0.5]%float 3 2%float
           ltac:(lia) Hquiet).
Defined.

(** X7 on the first three features of the demo scenario. *)
Lemma prefix_outputs_witness :
  compute_thresholds ewma demo_features 3 1%float
    = Ok (demo_time_deltas, demo_absolute_thetas, demo_thresholds, demo_times,
          demo_thetas, demo_grouping_ids) ∧
  (1 ≤ 3 ≤ length demo_features)%nat ∧
  compute_thresholds ewma (take 3 demo_features) 3 1%float
  = Ok (take (length (boundaries_before 3 demo_times)) demo_time_deltas,
        take 3 demo_absolute_thetas, take 3 demo_thresholds,
        boundaries_before 3 demo_times, take 3 demo_thetas,
        take 3 demo_grouping_ids).
Proof.
  split; [vm_compute; reflexivity|]. split; [simpl; lia|].
  apply (prefix_outputs ewma demo_features 3 1%float 3);
    [vm_compute; reflexivity|simpl; lia].
Defined.

(** X8 on [1.0, inf, 5.0, 7.0]: the call already fails on the first
    three features. *)
Lemma prefix_failure_witness :
  compute_thresholds ewma (take 3 [1; infinity; 5; 7]%float) 1 1%float
    = Err NumericError ∧
  (1 ≤ 3 ≤ length [1; infinity; 5; 7]%float)%nat ∧
  compute_thresholds ewma [1; infinity; 5; 7]%float 1 1%float
    = Err NumericError.
Proof.
  split; [vm_compute; reflexivity|]. split; [simpl; lia|].
  apply (prefix_failure ewma [1; infinity; 5; 7]%float 1 1%float 3);
    [vm_compute; reflexivity|simpl; lia].
Defined.

(** X9 with the reference smoothing, on the demo scenario. *)
Lemma index_error_iff_empty_witness :
  (∀ xs span, xs ≠ [] → ewma xs span ≠ Some []) ∧
  (compute_thresholds ewma demo_features 3 1%float = Err IndexError
   ↔ demo_features = []).
Proof.
  split; [exact ewma_nonempty|].
  exact (index_error_iff_empty ewma demo_features 3 1%float ewma_nonempty).
Defined.

(** X10 on [1.0, 1.0] with initial_expected_ticks = 2^63 and
    initial_bar_size = 0.0. *)
Lemma overflow_error_cause_witness :
  compute_thresholds ewma [1; 1]%float (2 ^ 63) 0%float = Err OverflowError ∧
  (¬ (- 2 ^ 63 ≤ 2 ^ 63 < 2 ^ 63) ∨
   2 ^ 63 ≤ Z.of_nat (length [1; 1]%float)).
Proof.
  split; [vm_compute; reflexivity|].
  apply (overflow_error_cause ewma [1; 1]%float (2 ^ 63) 0%float).
  vm_compute; reflexivity.
Defined.

(** X11 on [1.0, inf, 5.0]. *)
Lemma numeric_error_cause_witness :
  compute_thresholds ewma [1; infinity; 5]%float 1 1%float
    = Err NumericError ∧
  ((∃ i, (1 ≤ i < length [1; infinity; 5]%float)%nat ∧
      ewma (take i [1; infinity; 5]%float) 1 = None) ∨
   (∃ tds, tds ≠ [] ∧ (length tds < length [1; infinity; 5]%float)%nat ∧
      ewma tds (Z.of_nat (length tds)) = None)).
Proof.
  split; [vm_compute; reflexivity|].
  apply (numeric_error_cause ewma [1; infinity; 5]%float 1 1%float).
  vm_compute; reflexivity.
Defined.

(** X12 on a series with a NaN at index 1. *)
Lemma absorbing_value_stops_boundaries_witness :
  nan_features !! 1%nat = Some nan ∧
  compute_thresholds ewma nan_features 1 1%float
    = Ok ([], nan_thetas, nan_thresholds, [], nan_thetas, nan_grouping_ids) ∧
  (∀ i, i ∈ @nil nat → (i < 1)%nat) ∧
  (∀ i, (1 ≤ i < length nan_features)%nat → nan_thetas !! i = Some nan).
Proof.
  split; [reflexivity|]. split; [vm_compute; reflexivity|].
  apply (absorbing_value_stops_boundaries ewma nan 1 nan_features 1 1%float
           [] nan_thetas nan_thresholds nan_thetas nan_grouping_ids []).
  - exact binary64_nan_add_l.
  - exact binary64_nan_add_r.
  - exact binary64_nan_ge.
  - reflexivity.
  - vm_compute; reflexivity.
Defined.

(** X13 on the demo scenario, whose first boundary is at index 2. *)
Lemma first_boundary_from_seeds_witness :
  compute_thresholds ewma (1%float :: [1; 1; 1; 1; 1]%float) 3 1%float
    = Ok (demo_time_deltas, demo_absolute_thetas, demo_thresholds, demo_times,
          demo_thetas, demo_grouping_ids) ∧
  demo_times !! 0%nat = Some 2%nat ∧
  take 3 demo_thetas
    = take 3 (1%float :: sums_from 1%float [1; 1; 1; 1; 1]%float) ∧
  (∀ i s, (1 ≤ i ≤ 2)%nat →
     (1%float :: sums_from 1%float [1; 1; 1; 1; 1]%float) !! i = Some s →
     f_ge (f_abs s) (f_mul (f_of_int 3) 1%float) = bool_decide (i = 2%nat)).
Proof.
  split; [vm_compute; reflexivity|]. split; [reflexivity|].
  apply (first_boundary_from_seeds ewma 1%float [1; 1; 1; 1; 1]%float 3
           1%float 2 demo_time_deltas demo_absolute_thetas demo_thresholds
           demo_thetas demo_grouping_ids demo_times);
    [vm_compute; reflexivity|reflexivity].
Defined.

(** X14 on the demo scenario. *)
Lemma grouping_ids_on_bars_witness :
  compute_thresholds ewma demo_features 3 1%float
    = Ok (demo_time_deltas, demo_absolute_thetas, demo_thresholds, demo_times,
          demo_thetas, demo_grouping_ids) ∧
  (∀ t j, demo_times !! 0%nat = Some t → (j ≤ t)%nat →
     demo_grouping_ids !! j = Some (f_of_int 0)) ∧
  (∀ k p t j, demo_times !! k = Some p → demo_times !! S k = Some t →
     (p < j ≤ t)%nat →
     demo_grouping_ids !! j = Some (f_of_int (Z.of_nat (S k)))) ∧
  (∀ p j, last demo_times = Some p → (p < j < length demo_features)%nat →
     demo_grouping_ids !! j = Some (f_of_int (Z.of_nat (length demo_times)))).
Proof.
  split; [vm_compute; reflexivity|].
  apply (grouping_ids_on_bars ewma demo_features 3 1%float
           demo_time_deltas demo_absolute_thetas demo_thresholds
           demo_thetas demo_grouping_ids demo_times).
  vm_compute; reflexivity.
Defined.

(** X15 with the reference smoothing, on the demo scenario. *)
Lemma compute_thresholds_returns_witness :
  forallb f_isfinite demo_features = true ∧
  ∃ out, compute_thresholds ewma demo_features 3 1%float = Ok out.
Proof.
  split; [reflexivity|].
  apply (compute_thresholds_returns ewma demo_features 3 1%float).
  - exact ewma_returns.
  - exact binary64_small_finite.
  - reflexivity.
  - lia.
  - vm_compute; reflexivity.
  - discriminate.
Defined.
